(** * FRB-Host-Correlations: the exGaussian model, burst ranges and fit statistics

    A shallow embedding of [utils.py]: the sum-of-exGaussians model
    ([exgauss], [integral]), the two burst-range scans ([raw_burst_range],
    [model_burst_range]), the goodness-of-fit statistics ([rsquared],
    [adjusted_rsquared]) and the file-name helper ([get_frb]); and of what
    [plot_fit.py] computes before it draws: the component curves and the
    positions of the burst markers.

    Numbers.  The range extractors and the fit statistics are written over
    an interface of the arithmetic they use ([Scalar], [Floating]), and
    nothing is assumed of its operations: what is proved of them without
    naming an instance holds for binary64 floats with their rounding as for
    any other arithmetic.  Statements about particular numbers are made in
    two exact instances: the rationals ([exact_rational]), and the rationals
    extended by the three IEEE special values ([xnum], [exact_numpy]) where
    NumPy produces [inf] and [nan] instead of raising.  Rounding and
    overflow are left out of these two.

    [scipy.stats.exponnorm] is not part of the repository: its [pdf] and
    [cdf] enter every definition as parameters. *)

From Stdlib Require Import Ascii String.
From Stdlib Require Import List ZArith QArith Qabs Qminmax Lia Lqa Bool.
Import ListNotations.

(** ** Outcomes of a Python call *)

Inductive exn : Type :=
| TypeError
| ZeroDivisionError
| IndexError
| ValueError.

(** A call returns a value, raises, or is still running when the step
    budget of the model is used up. *)
Inductive outcome (A : Type) : Type :=
| Ok (a : A)
| Raise (e : exn)
| OutOfFuel.

Arguments Ok {A} a.
Arguments Raise {A} e.
Arguments OutOfFuel {A}.

Definition bind {A B : Type} (c : outcome A) (k : A -> outcome B) : outcome B :=
  match c with
  | Ok a => k a
  | Raise e => Raise e
  | OutOfFuel => OutOfFuel
  end.

Notation "x <- c ;; k" := (bind c (fun x => k))
  (at level 61, c at next level, right associativity).

(** ** Python sequences *)

Module Py.

(** [range(start, stop, step)] for a positive step. *)
Definition range (start stop step : Z) : list Z :=
  map (fun j => start + Z.of_nat j * step)%Z
      (seq 0 (Z.to_nat ((stop - start + step - 1) / step))).

(** [l[i:j]] for non-negative bounds; the bounds are clamped to the list. *)
Definition slice {A : Type} (l : list A) (i j : Z) : list A :=
  firstn (Z.to_nat (j - i)) (skipn (Z.to_nat i) l).

(** [l[i]], negative indices counting from the end. *)
Definition index {A : Type} (l : list A) (i : Z) : outcome A :=
  let n := Z.of_nat (length l) in
  let j := if (i <? 0)%Z then (n + i)%Z else i in
  if ((0 <=? j) && (j <? n))%Z%bool then
    match nth_error l (Z.to_nat j) with
    | Some a => Ok a
    | None => Raise IndexError
    end
  else Raise IndexError.

Definition len {A : Type} (l : list A) : Z := Z.of_nat (length l).

End Py.

(** ** The scalar type of the model *)

(** The arithmetic [exgauss] and [integral] use.  [zero] is the integer [0]
    that [sum] starts from; division may raise (a Python float divided by
    zero) or be total (a NumPy scalar). *)
Class Scalar (T : Type) : Type := {
  zero : T;
  add : T -> T -> T;
  mul : T -> T -> T;
  div : T -> T -> outcome T
}.

(** ** The arithmetic of the samples *)

(** What the range extractors and the fit statistics use of the numbers they
    are run on, besides [Scalar]: the conversion of a Python [int], [-], a
    division that raises nothing (of a NumPy scalar, or of a Python float by
    a non-zero literal), [<], and NumPy's [trapz], [sum] and [mean].  The
    functions below are written over this interface and assume nothing of its
    operations: rounding, overflow, [inf] and [nan] belong to the instance. *)
Class Floating (T : Type) `{Scalar T} : Type := {
  from_int : Z -> T;
  minus : T -> T -> T;
  quotient : T -> T -> T;
  less : T -> T -> bool;
  trapezoid : list T -> T;
  total : list T -> T;
  average : list T -> T
}.

(** ** Model Evaluator *)

Section Evaluator.

Context {T : Type} `{Scalar T}.

(** [exponnorm.pdf(x, K, loc=, scale=)] and [exponnorm.cdf(x, K, loc=, scale=)],
    arguments in this order. *)
Variable pdf : T -> T -> T -> T -> T.
Variable cdf : T -> T -> T -> T -> T.

(** [sum(generator)]: the terms are produced and added one by one, left to
    right, from the integer 0; the first term that raises ends the sum. *)
Fixpoint sum_from (acc : T) (g : list (outcome T)) : outcome T :=
  match g with
  | [] => Ok acc
  | c :: g' => v <- c ;; sum_from (add acc v) g'
  end.

Definition py_sum (g : list (outcome T)) : outcome T := sum_from zero g.

(** [lambda x, a, u, sd, ts: a * exponnorm.pdf(x, ts / sd, loc=u, scale=sd)] *)
Definition _exgauss (x a u sd ts : T) : outcome T :=
  K <- div ts sd ;; Ok (mul a (pdf x K u sd)).

(** [lambda x, a, u, sd, ts: a * exponnorm.cdf(x, ts / sd, loc=u, scale=sd)] *)
Definition single_integral (x a u sd ts : T) : outcome T :=
  K <- div ts sd ;; Ok (mul a (cdf x K u sd)).

(** [f(x, *args[i:i+3], args[-1])]: the slice is unpacked into the three
    positional parameters [a], [u], [sd]; any other number of them is a
    [TypeError]. *)
Definition star_call (f : T -> T -> T -> T -> outcome T)
           (args : list T) (i : Z) : outcome T :=
  let unpacked := Py.slice args i (i + 3) in
  ts <- Py.index args (-1) ;;
  match unpacked with
  | [a; u; sd] => f a u sd ts
  | _ => Raise TypeError
  end.

Definition exgauss (x : T) (args : list T) : outcome T :=
  py_sum (map (star_call (_exgauss x) args) (Py.range 0 (Py.len args - 1) 3)).

Definition integral (x : T) (args : list T) : outcome T :=
  py_sum (map (star_call (single_integral x) args) (Py.range 0 (Py.len args - 1) 3)).

(** *** The parameter vector as the specification reads it *)

(** [k] triples (amplitude, location, scale) followed by the shared [ts]. *)
Definition n_components (args : list T) : nat := (length args - 1) / 3.
Definition amplitude (args : list T) (i : nat) : T := nth (3 * i) args zero.
Definition location (args : list T) (i : nat) : T := nth (3 * i + 1) args zero.
Definition scale (args : list T) (i : nat) : T := nth (3 * i + 2) args zero.
Definition shared_ts (args : list T) : T := last args zero.

(** [amplitude_i * kernel(x; location_i, scale_i, shape = ts / scale_i)] *)
Definition component_term (kernel : T -> T -> T -> T -> T)
           (x : T) (args : list T) (i : nat) : outcome T :=
  K <- div (shared_ts args) (scale args i) ;;
  Ok (mul (amplitude args i) (kernel x K (location args i) (scale args i))).

(** The sum over the components [0 .. k-1], in order. *)
Definition component_sum (kernel : T -> T -> T -> T -> T)
           (x : T) (args : list T) (k : nat) : outcome T :=
  py_sum (map (component_term kernel x args) (seq 0 k)).

End Evaluator.

(** ** Range Extractor *)

Section RangeExtractor.

Context {T : Type} `{Floating T}.

(** [max(a, b)] and [min(a, b)] of two arguments: the first one wins a tie. *)
Definition py_max (a b : T) : T := if less a b then b else a.
Definition py_min (a b : T) : T := if less b a then b else a.

(** [while np.trapz(ys[:i]) < threshold: i += 1], at most [fuel] tests of
    the condition. *)
Fixpoint raw_scan (fuel : nat) (ys : list T) (threshold : T) (i : nat) : outcome nat :=
  match fuel with
  | O => OutOfFuel
  | S fuel' =>
      if less (trapezoid (firstn i ys)) threshold
      then raw_scan fuel' ys threshold (S i)
      else Ok i
  end.

(** [area] and [extra_width] default to [globalpars.RAW_CENTRE_AREA] and
    [globalpars.RAW_EXTRA_WIDTH]; they are arguments here. *)
Definition raw_burst_range (fuel : nat) (ys : list T) (area extra_width : T)
  : outcome (T * T) :=
  let total_area := trapezoid ys in
  let low_area := mul (quotient (minus (from_int 1) area) (from_int 2)) total_area in
  let high_area := mul (quotient (add (from_int 1) area) (from_int 2)) total_area in
  low <- raw_scan fuel ys low_area 0 ;;
  i <- raw_scan fuel ys high_area low ;;
  let width := mul (from_int (Z.of_nat i - Z.of_nat low)) extra_width in
  Ok (py_max (from_int 0) (minus (from_int (Z.of_nat low)) width),
      py_min (from_int (Py.len ys)) (add (from_int (Z.of_nat i)) width)).

End RangeExtractor.

Section ModelRange.

Context {T : Type} `{Floating T}.
Variable cdf : T -> T -> T -> T -> T.

(** [while integral(xs[i], *params) < threshold: i += 1] *)
Fixpoint model_scan (fuel : nat) (xs params : list T) (threshold : T)
         (i : nat) : outcome nat :=
  match fuel with
  | O => OutOfFuel
  | S fuel' =>
      x <- Py.index xs (Z.of_nat i) ;;
      v <- integral cdf x params ;;
      if less v threshold
      then model_scan fuel' xs params threshold (S i)
      else Ok i
  end.

(** [area] defaults to [globalpars.MODEL_CENTRE_AREA]. *)
Definition model_burst_range (fuel : nat) (xs params : list T) (area : T)
  : outcome (nat * nat) :=
  x_last <- Py.index xs (-1) ;;
  total_area <- integral cdf x_last params ;;
  let low_area := mul (quotient (minus (from_int 1) area) (from_int 2)) total_area in
  let high_area := mul (quotient (add (from_int 1) area) (from_int 2)) total_area in
  low <- model_scan fuel xs params low_area 0 ;;
  i <- model_scan fuel xs params high_area low ;;
  Ok (low, i).

End ModelRange.

(** ** Fit Statistics *)

Fixpoint zip_with {A B C : Type} (f : A -> B -> C) (a : list A) (b : list B) : list C :=
  match a, b with
  | x :: a', y :: b' => f x y :: zip_with f a' b'
  | _, _ => []
  end.

(** [[f(x) for x in xs]]: the elements are computed in order. *)
Fixpoint list_comp {A B : Type} (f : A -> outcome B) (xs : list A) : outcome (list B) :=
  match xs with
  | [] => Ok []
  | x :: xs' => v <- f x ;; vs <- list_comp f xs' ;; Ok (v :: vs)
  end.

Section FitStatistics.

Context {T : Type} `{Floating T}.
Variable pdf : T -> T -> T -> T -> T.

(** [a ** 2] on an array *)
Definition np_square (a : list T) : list T := map (fun v => mul v v) a.

(** [a - b] on one-dimensional arrays: equal lengths, or one of them of
    length one and broadcast; any other pair of shapes is a [ValueError]. *)
Definition np_sub (a b : list T) : outcome (list T) :=
  if Nat.eqb (length a) (length b) then Ok (zip_with minus a b)
  else match a, b with
       | [x], _ => Ok (map (fun y => minus x y) b)
       | _, [y] => Ok (map (fun x => minus x y) a)
       | _, _ => Raise ValueError
       end.

Definition rsquared (xs ys params : list T) : outcome T :=
  model <- list_comp (fun x => exgauss pdf x params) xs ;;
  residuals <- np_sub ys model ;;
  let ss_res := total (np_square residuals) in
  let ss_tot := total (np_square (map (fun y => minus y (average ys)) ys)) in
  Ok (minus (from_int 1) (quotient ss_res ss_tot)).

Definition adjusted_rsquared (xs ys params : list T) : outcome T :=
  rs <- rsquared xs ys params ;;
  Ok (minus (from_int 1)
            (quotient (mul (minus (from_int 1) rs) (from_int (Py.len xs - 1)))
                      (from_int (Py.len xs - Py.len params - 1)))).

End FitStatistics.


(** * Exact arithmetic

    The instances the model is run on in the statements about numbers:
    finite values are exact rationals, so rounding and overflow are left out
    of them. *)

(** ** NumPy scalars: rationals with [inf] and [nan] *)

Definition Qltb (a b : Q) : bool := negb (Qle_bool b a).

Inductive xnum : Type :=
| Fin (q : Q)
| PInf
| NInf
| NaN.

(** The sign of a product or quotient; [Eq] stands for "no sign" (a zero
    or a [nan] factor). *)
Definition xsign (x : xnum) : comparison :=
  match x with
  | Fin q => q ?= 0
  | PInf => Gt
  | NInf => Lt
  | NaN => Eq
  end.

Definition sign_mul (a b : comparison) : comparison :=
  match a, b with
  | Eq, _ | _, Eq => Eq
  | Gt, Gt | Lt, Lt => Gt
  | _, _ => Lt
  end.

(** The infinity of a given sign; [inf * 0] and [0 / 0] are [nan]. *)
Definition xinf (s : comparison) : xnum :=
  match s with
  | Gt => PInf
  | Lt => NInf
  | Eq => NaN
  end.

Definition xopp (x : xnum) : xnum :=
  match x with
  | Fin q => Fin (- q)
  | PInf => NInf
  | NInf => PInf
  | NaN => NaN
  end.

Definition xadd (x y : xnum) : xnum :=
  match x, y with
  | NaN, _ | _, NaN => NaN
  | Fin a, Fin b => Fin (a + b)
  | PInf, NInf | NInf, PInf => NaN
  | PInf, _ | _, PInf => PInf
  | NInf, _ | _, NInf => NInf
  end.

Definition xsub (x y : xnum) : xnum := xadd x (xopp y).

Definition xmul (x y : xnum) : xnum :=
  match x, y with
  | NaN, _ | _, NaN => NaN
  | Fin a, Fin b => Fin (a * b)
  | _, _ => xinf (sign_mul (xsign x) (xsign y))
  end.

(** Zeros carry no sign here: a zero divisor counts as [+0.0], which is what
    an integer zero and a sum of squares are. *)
Definition xdiv (x y : xnum) : xnum :=
  match x, y with
  | NaN, _ | _, NaN => NaN
  | Fin a, Fin b => if Qeq_bool b 0 then xinf (a ?= 0) else Fin (a / b)
  | Fin _, _ => Fin 0
  | _, Fin b => if Qltb b 0 then xopp x else x
  | _, _ => NaN
  end.

(** [x < y]; every comparison with [nan] is false. *)
Definition xlt (x y : xnum) : bool :=
  match x, y with
  | NaN, _ | _, NaN => false
  | Fin a, Fin b => Qltb a b
  | _, NInf => false
  | NInf, _ => true
  | PInf, _ => false
  | _, PInf => true
  end.

(** [x <= y] *)
Definition xle (x y : xnum) : bool :=
  match x, y with
  | NaN, _ | _, NaN => false
  | Fin a, Fin b => Qle_bool a b
  | NInf, _ => true
  | _, PInf => true
  | _, _ => false
  end.

Definition xfinite (x : xnum) : bool :=
  match x with
  | Fin _ => true
  | _ => false
  end.

Definition of_int (z : Z) : xnum := Fin (inject_Z z).

#[export] Instance xnum_scalar : Scalar xnum := {
  zero := Fin 0;
  add := xadd;
  mul := xmul;
  div := fun x y => Ok (xdiv x y)
}.

(** ** The samples as exact rationals *)

(** [np.trapz(ys)] with unit spacing: [sum(1.0 * (ys[1:] + ys[:-1]) / 2.0)]. *)
Fixpoint trapz (ys : list Q) : Q :=
  match ys with
  | a :: (b :: _) as rest => 1 * (b + a) / 2 + trapz rest
  | _ => 0
  end.

Definition Qsum (l : list Q) : Q := fold_left Qplus l 0.
Definition mean (ys : list Q) : Q := Qsum ys / inject_Z (Py.len ys).

(** Python floats: exact rationals whose division by zero raises. *)
#[export] Instance pyfloat_scalar : Scalar Q := {
  zero := 0;
  add := Qplus;
  mul := Qmult;
  div := fun a b => if Qeq_bool b 0 then Raise ZeroDivisionError else Ok (a / b)
}.

#[export] Instance exact_rational : Floating Q := {
  from_int := inject_Z;
  minus := Qminus;
  quotient := Qdiv;
  less := Qltb;
  trapezoid := trapz;
  total := Qsum;
  average := mean
}.

(** ** The samples as NumPy scalars *)

Fixpoint np_trapz (ys : list xnum) : xnum :=
  match ys with
  | a :: (b :: _) as rest => xadd (xdiv (xmul (Fin 1) (xadd b a)) (Fin 2)) (np_trapz rest)
  | _ => Fin 0
  end.

Definition np_sum (a : list xnum) : xnum := fold_left xadd a (Fin 0).

Definition np_mean (a : list xnum) : xnum := xdiv (np_sum a) (of_int (Py.len a)).

#[export] Instance exact_numpy : Floating xnum := {
  from_int := of_int;
  minus := xsub;
  quotient := xdiv;
  less := xlt;
  trapezoid := np_trapz;
  total := np_sum;
  average := np_mean
}.

(** Python-float parameters in NumPy arithmetic: [ts / sd] raises on a zero
    [sd], every other operation is the one of [exact_numpy]. *)
Definition pyfloat_params : Scalar xnum := {|
  zero := Fin 0;
  add := xadd;
  mul := xmul;
  div := fun x y =>
           match y with
           | Fin b => if Qeq_bool b 0 then Raise ZeroDivisionError else Ok (xdiv x y)
           | _ => Ok (xdiv x y)
           end
|}.

Definition pyfloat_numpy : @Floating xnum pyfloat_params := {|
  from_int := of_int;
  minus := xsub;
  quotient := xdiv;
  less := xlt;
  trapezoid := np_trapz;
  total := np_sum;
  average := np_mean
|}.

(** ** A concrete distribution to run the model on *)

(** The uniform distribution on [[loc, loc + scale]] ([scipy.stats.uniform]),
    given the call signature of [exponnorm]: rational-valued, so the model
    evaluates on it.  Like every scipy distribution it answers [nan] to a
    shape or scale that is not positive. *)
Definition unif_pdf (x K loc scale : xnum) : xnum :=
  match x, K, loc, scale with
  | Fin x, Fin K, Fin u, Fin s =>
      if Qltb 0 K && Qltb 0 s then
        if Qle_bool u x && Qle_bool x (u + s) then Fin (1 / s) else Fin 0
      else NaN
  | _, _, _, _ => NaN
  end.

Definition unif_cdf (x K loc scale : xnum) : xnum :=
  match x, K, loc, scale with
  | Fin x, Fin K, Fin u, Fin s =>
      if Qltb 0 K && Qltb 0 s then
        if Qltb x u then Fin 0
        else if Qle_bool x (u + s) then Fin ((x - u) / s) else Fin 1
      else NaN
  | _, _, _, _ => NaN
  end.

(** The values of [unif_pdf] and [unif_cdf] on their domain. *)
Definition unif_pdfQ (x K u s : Q) : Q :=
  if Qle_bool u x && Qle_bool x (u + s) then 1 / s else 0.

Definition unif_cdfQ (x K u s : Q) : Q :=
  if Qltb x u then 0 else if Qle_bool x (u + s) then (x - u) / s else 1.





(** ** Vocabulary of the statements *)

(** The values of computations run in order; the first one that fails is
    the outcome. *)
Fixpoint all_values {A : Type} (l : list (outcome A)) : outcome (list A) :=
  match l with
  | [] => Ok []
  | c :: l' => v <- c ;; vs <- all_values l' ;; Ok (v :: vs)
  end.



Section RawVocabulary.

Context {T : Type} `{Floating T}.

(** The two thresholds of [raw_burst_range]. *)
Definition lower_threshold (ys : list T) (area : T) : T :=
  mul (quotient (minus (from_int 1) area) (from_int 2)) (trapezoid ys).
Definition upper_threshold (ys : list T) (area : T) : T :=
  mul (quotient (add (from_int 1) area) (from_int 2)) (trapezoid ys).

(** The area under the first [i] samples, [np.trapz(ys[:i])], in the
    arithmetic of the samples. *)
Definition area_up_to (ys : list T) (i : nat) : T := trapezoid (firstn i ys).

(** [j] is the smallest index at which the area reaches [threshold], [le]
    being the order of the numbers. *)
Definition first_index_reaching (le : T -> T -> Prop)
           (ys : list T) (threshold : T) (j : nat) : Prop :=
  le threshold (area_up_to ys j) /\
  forall m, (m < j)%nat -> ~ le threshold (area_up_to ys m).

End RawVocabulary.

(** The sum of the amplitudes of the [k] components: the total area of the
    model. *)
Definition total_amplitude (qs : list Q) (k : nat) : Q :=
  fold_left (fun acc i => acc + amplitude qs i) (seq 0 k) 0.

(** [f x] converges to [L] as [x] grows. *)
Definition tends_to (f : Q -> Q) (L : Q) : Prop :=
  forall eps, 0 < eps -> exists M, forall x, M <= x -> L - eps < f x /\ f x < L + eps.

(** The area under the first [i] samples, [np.trapz(ys[:i])]. *)
Definition cumulative (ys : list Q) (i : nat) : Q := trapz (firstn i ys).

Definition Qis_int (q : Q) : Prop := exists z : Z, q == inject_Z z.

(** Not negative: a sum of squares is a non-negative rational, [inf] or [nan]. *)
Definition xnonneg (x : xnum) : Prop :=
  match x with
  | Fin q => 0 <= q
  | NInf => False
  | _ => True
  end.

(** ** The component curves of the plot *)

Section PlotComponents.

Context {T : Type} `{Scalar T}.
Variable pdf : T -> T -> T -> T -> T.

(** [plot_fit._plot]: the curve of one component,
    [exgauss(xs, *params[i:i+3], params[-1])], at one point of [xs]. *)
Definition component_curve (x : T) (params : list T) (i : Z) : outcome T :=
  let head := Py.slice params i (i + 3) in
  ts <- Py.index params (-1) ;;
  exgauss pdf x (head ++ [ts]).

(** [for i in range(0, len(params)-1, 3)]: the curves in the order drawn. *)
Definition component_curves (x : T) (params : list T) : list (outcome T) :=
  map (component_curve x params) (Py.range 0 (Py.len params - 1) 3).

End PlotComponents.

(** ** File names *)

(** A Python [str] is the list of its characters. *)
Definition str : Type := list ascii.

(** [s.rfind(c)]: the highest index of [c] in [s], [-1] when there is none. *)
Fixpoint rfind_from (c : ascii) (s : str) (i found : Z) : Z :=
  match s with
  | [] => found
  | a :: r => rfind_from c r (i + 1) (if Ascii.eqb a c then i else found)
  end.

Definition str_rfind (c : ascii) (s : str) : Z := rfind_from c s 0 (-1).

(** [s.index(c)]: the lowest index of [c] in [s]; [ValueError] when there
    is none. *)
Fixpoint index_from (c : ascii) (s : str) (i : Z) : outcome Z :=
  match s with
  | [] => Raise ValueError
  | a :: r => if Ascii.eqb a c then Ok i else index_from c r (i + 1)
  end.

Definition str_index (c : ascii) (s : str) : outcome Z := index_from c s 0.

(** [os.path.basename] of [posixpath]: [i = p.rfind('/') + 1; return p[i:]]. *)
Definition basename (p : str) : str :=
  let i := (str_rfind "/" p + 1)%Z in
  skipn (Z.to_nat i) p.

(** [name[:name.index(".")]] *)
Definition get_frb (input : str) : outcome str :=
  let name := basename input in
  k <- str_index "." name ;;
  Ok (firstn (Z.to_nat k) name).

(** ** The markers of the plot *)

(** [plot_fit.plot_fitted] cuts [xs] to [xs[low:high]] and hands [low] to
    [_plot] as [low_i]; [_plot] draws a marker at [xs[b - low_i]] for each
    bound [b] of the burst range. *)
Definition marker {A : Type} (xs : list A) (low high b : Z) : outcome A :=
  let window := Py.slice xs low high in
  Py.index window (b - low).

(** [j] is the first sample at which the values [I 0, I 1, ...] reach
    [threshold]. *)
Definition first_sample_reaching (I : nat -> Q) (threshold : Q) (j : nat) : Prop :=
  threshold <= I j /\ forall m, (m < j)%nat -> I m < threshold.

(** The integral of one uniform component of amplitude 2 on [[0, 4]] at the
    samples 0, 1, ..., 5, as [integral] computes it. *)
Definition ramp_integrals (i : nat) : Q :=
  nth i [0 # 4; 2 # 4; 4 # 4; 6 # 4; 8 # 4; 2] 0.

(** * Theorems *)

Section EvaluatorFacts.

Context {T : Type} `{Scalar T}.

Lemma range_by_three (k : nat) :
  Py.range 0 (Z.of_nat (3 * k + 1) - 1) 3 = map (fun j => (3 * Z.of_nat j)%Z) (seq 0 k).
Proof.
  unfold Py.range.
  replace (Z.to_nat ((Z.of_nat (3 * k + 1) - 1 - 0 + 3 - 1) / 3)) with k.
  - apply map_ext; intros j; lia.
  - replace (Z.of_nat (3 * k + 1) - 1 - 0 + 3 - 1)%Z with (2 + Z.of_nat k * 3)%Z by lia.
    rewrite Z.div_add by lia. change (2 / 3)%Z with 0%Z. lia.
Qed.

Lemma slice_three (args : list T) (i : nat) (d : T) :
  (3 * i + 3 <= length args)%nat ->
  Py.slice args (3 * Z.of_nat i) (3 * Z.of_nat i + 3) =
  [nth (3 * i) args d; nth (3 * i + 1) args d; nth (3 * i + 2) args d].
Proof.
  intros Hlen. unfold Py.slice.
  replace (Z.to_nat (3 * Z.of_nat i + 3 - 3 * Z.of_nat i)) with 3%nat by lia.
  replace (Z.to_nat (3 * Z.of_nat i)) with (3 * i)%nat by lia.
  generalize dependent (3 * i)%nat. clear i.
  intros n; revert args.
  induction n as [|n IH]; intros args Hlen.
  - destruct args as [|a [|b [|c r]]]; simpl in Hlen; try lia. reflexivity.
  - destruct args as [|a r]; simpl in Hlen; try lia.
    simpl skipn. rewrite IH by lia. reflexivity.
Qed.

Lemma index_last (args : list T) (d : T) :
  args <> [] -> Py.index args (-1) = Ok (last args d).
Proof.
  intros Hne. unfold Py.index. cbv zeta.
  change (-1 <? 0)%Z with true. cbv iota.
  assert (Hn : (0 < length args)%nat) by (destruct args; simpl; [congruence | lia]).
  replace ((0 <=? Z.of_nat (length args) + -1) && (Z.of_nat (length args) + -1 <? Z.of_nat (length args)))%Z%bool
    with true by (symmetry; apply andb_true_iff; split; [apply Z.leb_le | apply Z.ltb_lt]; lia).
  replace (Z.to_nat (Z.of_nat (length args) + -1)) with (length args - 1)%nat by lia.
  rewrite nth_error_nth' with (d := d) by lia.
  f_equal. destruct args as [|a r] using rev_ind; [congruence|].
  rewrite last_last, length_app. simpl.
  replace (length r + 1 - 1)%nat with (length r) by lia.
  now rewrite nth_middle.
Qed.

(** One call through the slice is one component of the parameter vector. *)
Lemma star_call_component (kernel : T -> T -> T -> T -> T) (x : T)
      (args : list T) (k i : nat) :
  length args = (3 * k + 1)%nat -> (i < k)%nat ->
  star_call (fun a u sd ts => K <- div ts sd ;; Ok (mul a (kernel x K u sd)))
            args (3 * Z.of_nat i) =
  component_term kernel x args i.
Proof.
  intros Hlen Hi. unfold star_call, component_term.
  rewrite (slice_three args i zero) by lia.
  rewrite (index_last args zero) by (destruct args; simpl in Hlen; [lia | congruence]).
  reflexivity.
Qed.

Lemma sum_by_components (kernel : T -> T -> T -> T -> T) (x : T)
      (args : list T) (k : nat) :
  length args = (3 * k + 1)%nat ->
  py_sum (map (star_call (fun a u sd ts => K <- div ts sd ;; Ok (mul a (kernel x K u sd))) args)
              (Py.range 0 (Py.len args - 1) 3)) =
  component_sum kernel x args k.
Proof.
  intros Hlen. unfold component_sum, Py.len. rewrite Hlen, range_by_three, map_map.
  f_equal. apply map_ext_in. intros i Hi. apply in_seq in Hi.
  apply star_call_component with (k := k); [assumption | lia].
Qed.

(** [sum] adds, left to right from its start value, the values of the
    terms; a term that fails ends it. *)
Lemma sum_from_all_values (g : list (outcome T)) :
  forall acc, sum_from acc g = (terms <- all_values g ;; Ok (fold_left add terms acc)).
Proof.
  induction g as [|c g IH]; intros acc; [reflexivity|].
  cbn [sum_from all_values]. destruct c as [v| |]; cbn [bind]; try reflexivity.
  rewrite IH. now destruct (all_values g).
Qed.

Lemma all_values_ok {A : Type} (f : nat -> outcome A) (v : nat -> A) (l : list nat) :
  (forall i, In i l -> f i = Ok (v i)) -> all_values (map f l) = Ok (map v l).
Proof.
  induction l as [|i l IH]; intros Hl; [reflexivity|].
  cbn [map all_values]. rewrite (Hl i (or_introl eq_refl)). cbn [bind].
  rewrite IH; [reflexivity|]. intros j Hj. apply Hl. now right.
Qed.

(** The sum the evaluator computes on a vector of length [3k+1], term by
    term. *)
Lemma sum_of_terms (kernel : T -> T -> T -> T -> T) (x : T) (args : list T) (k : nat) :
  length args = (3 * k + 1)%nat ->
  py_sum (map (star_call (fun a u sd ts => K <- div ts sd ;; Ok (mul a (kernel x K u sd))) args)
              (Py.range 0 (Py.len args - 1) 3)) =
  (terms <- all_values (map (component_term kernel x args) (seq 0 k)) ;;
   Ok (fold_left add terms zero)).
Proof.
  intros Hlen. rewrite (sum_by_components kernel x args k Hlen).
  unfold component_sum, py_sum. apply sum_from_all_values.
Qed.

(** The same when no division raises: the value is the sum of the [k]
    products. *)
Lemma sum_of_products (kernel : T -> T -> T -> T -> T) (x : T) (args : list T)
      (k : nat) (K : nat -> T) :
  length args = (3 * k + 1)%nat ->
  (forall i, (i < k)%nat -> div (shared_ts args) (scale args i) = Ok (K i)) ->
  py_sum (map (star_call (fun a u sd ts => K <- div ts sd ;; Ok (mul a (kernel x K u sd))) args)
              (Py.range 0 (Py.len args - 1) 3)) =
  Ok (fold_left add
                (map (fun i => mul (amplitude args i)
                                   (kernel x (K i) (location args i) (scale args i)))
                     (seq 0 k))
                zero).
Proof.
  intros Hlen HK. rewrite (sum_of_terms kernel x args k Hlen).
  rewrite (all_values_ok _ (fun i => mul (amplitude args i)
                                         (kernel x (K i) (location args i) (scale args i)))).
  - reflexivity.
  - intros i Hi. apply in_seq in Hi. unfold component_term.
    rewrite HK by lia. reflexivity.
Qed.

Lemma n_components_length (args : list T) (k : nat) :
  length args = (3 * k + 1)%nat -> n_components args = k.
Proof.
  intros Hlen. unfold n_components. rewrite Hlen.
  replace (3 * k + 1 - 1)%nat with (k * 3)%nat by lia.
  apply Nat.div_mul. lia.
Qed.

End EvaluatorFacts.

Section EvaluatorClaims.

Context {T : Type} `{Scalar T}.
Variable pdf : T -> T -> T -> T -> T.
Variable cdf : T -> T -> T -> T -> T.

(** C1: for a parameter vector of length [3k+1], [k >= 1], and every [x],
    [k] is [(len - 1) / 3] and [exgauss] returns the sum, added left to
    right from [0], of the [k] terms
    [amplitude_i * pdf(x; shape = ts / scale_i, loc = location_i, scale = scale_i)],
    [ts] being the last element.  A division [ts / scale_i] that raises ends
    the call with its error; when none does, the value is the sum of the [k]
    products.  It holds in every arithmetic. *)
Theorem exgauss_component_sum (x : T) (args : list T) (k : nat) :
  (1 <= k)%nat -> length args = (3 * k + 1)%nat ->
  n_components args = k /\
  exgauss pdf x args =
  (terms <- all_values (map (component_term pdf x args) (seq 0 k)) ;;
   Ok (fold_left add terms zero)) /\
  forall K : nat -> T,
    (forall i, (i < k)%nat -> div (shared_ts args) (scale args i) = Ok (K i)) ->
    exgauss pdf x args =
    Ok (fold_left add
                  (map (fun i => mul (amplitude args i)
                                     (pdf x (K i) (location args i) (scale args i)))
                       (seq 0 k))
                  zero).
Proof.
  intros _ Hlen. split; [|split].
  - now apply n_components_length.
  - exact (sum_of_terms pdf x args k Hlen).
  - intros K HK. exact (sum_of_products pdf x args k K Hlen HK).
Qed.

(** C9: on a vector of length 1 (only [ts], no component) [exgauss] and
    [integral] return [0] for every [x]; nothing is raised. *)
Theorem exgauss_integral_no_component (x ts : T) :
  exgauss pdf x [ts] = Ok zero /\ integral cdf x [ts] = Ok zero.
Proof. split; reflexivity. Qed.

End EvaluatorClaims.

(** Two uniform components at [x = 1/2]: the terms are [2 * 1] and
    [3 * (1/2)], and the value returned is 7/2. *)
Lemma exgauss_component_sum_witness :
  (n_components (map Fin [2; 0; 1; 3; 0; 2; 1]) = 2%nat /\
   exgauss unif_pdf (Fin (1 # 2)) (map Fin [2; 0; 1; 3; 0; 2; 1]) =
   (terms <- all_values (map (component_term unif_pdf (Fin (1 # 2))
                                             (map Fin [2; 0; 1; 3; 0; 2; 1]))
                             (seq 0 2)) ;;
    Ok (fold_left add terms zero)) /\
   forall K : nat -> xnum,
     (forall i, (i < 2)%nat ->
                div (shared_ts (map Fin [2; 0; 1; 3; 0; 2; 1]))
                    (scale (map Fin [2; 0; 1; 3; 0; 2; 1]) i) = Ok (K i)) ->
     exgauss unif_pdf (Fin (1 # 2)) (map Fin [2; 0; 1; 3; 0; 2; 1]) =
     Ok (fold_left add
                   (map (fun i => mul (amplitude (map Fin [2; 0; 1; 3; 0; 2; 1]) i)
                                      (unif_pdf (Fin (1 # 2)) (K i)
                                                (location (map Fin [2; 0; 1; 3; 0; 2; 1]) i)
                                                (scale (map Fin [2; 0; 1; 3; 0; 2; 1]) i)))
                        (seq 0 2))
                   zero)) /\
  exists v, exgauss unif_pdf (Fin (1 # 2)) (map Fin [2; 0; 1; 3; 0; 2; 1]) = Ok (Fin v) /\
            v == 7 # 2.
Proof.
  split.
  - apply (exgauss_component_sum unif_pdf (Fin (1 # 2)) (map Fin [2; 0; 1; 3; 0; 2; 1]) 2).
    + lia.
    + reflexivity.
  - eexists. split; reflexivity.
Defined.

(** Outside the lengths [3k+1] the unpacking can fail: on five parameters
    the second slice has two elements. *)
Example exgauss_five_parameters :
  exgauss unif_pdf (Fin 0) (map Fin [1; 0; 1; 5; 5]) = Raise TypeError.
Proof. reflexivity. Qed.

(** On Python floats a zero scale raises in [exgauss] and in the component
    sum alike. *)
Example exgauss_zero_scale_pyfloat :
  exgauss unif_pdfQ 0 [1; 0; 0; 1] = Raise ZeroDivisionError /\
  component_sum unif_pdfQ 0 [1; 0; 0; 1] 1 = Raise ZeroDivisionError.
Proof. split; reflexivity. Qed.

(** ** Comparisons and sums on the rationals *)

Lemma Qltb_lt (a b : Q) : Qltb a b = true <-> a < b.
Proof.
  unfold Qltb. rewrite negb_true_iff.
  split; intros Hab.
  - apply Qnot_le_lt. intros Hle. apply Qle_bool_iff in Hle. congruence.
  - destruct (Qle_bool b a) eqn:E; [|reflexivity].
    apply Qle_bool_iff in E. exfalso; lra.
Qed.

Lemma Qltb_ge (a b : Q) : Qltb a b = false <-> b <= a.
Proof.
  unfold Qltb. rewrite negb_false_iff. apply Qle_bool_iff.
Qed.

Lemma Qle_bool_gt (a b : Q) : Qle_bool a b = false <-> b < a.
Proof.
  rewrite <- Qltb_lt. unfold Qltb. now rewrite negb_true_iff.
Qed.

(** Case analysis on the comparisons of the goal, each case with its
    inequality among the hypotheses. *)
Ltac qcases :=
  repeat match goal with
         | |- context [Qltb ?a ?b] =>
             let E := fresh "E" in
             destruct (Qltb a b) eqn:E; [apply Qltb_lt in E | apply Qltb_ge in E]
         | |- context [Qle_bool ?a ?b] =>
             let E := fresh "E" in
             destruct (Qle_bool a b) eqn:E; [apply Qle_bool_iff in E | apply Qle_bool_gt in E]
         end.

(** The operations of the exact instances, by their names. *)
Ltac exact_arith :=
  cbn [from_int minus quotient less trapezoid total average zero add mul
       exact_rational exact_numpy pyfloat_scalar xnum_scalar] in *;
  change (inject_Z 0) with 0 in *;
  change (inject_Z 1) with 1 in *;
  change (inject_Z 2) with 2 in *.

Lemma Qeq_bool_pos (s : Q) : 0 < s -> Qeq_bool s 0 = false.
Proof.
  intros Hs. destruct (Qeq_bool s 0) eqn:E; [|reflexivity].
  apply Qeq_bool_iff in E. exfalso; lra.
Qed.

Lemma last_map {A B : Type} (f : A -> B) (l : list A) (d : A) :
  last (map f l) (f d) = f (last l d).
Proof.
  induction l as [|a [|b r] IH]; [reflexivity | reflexivity |].
  exact IH.
Qed.

Section Limits.

Lemma tends_to_const (c : Q) : tends_to (fun _ => c) c.
Proof. intros eps Heps. exists 0. intros x _. lra. Qed.

Lemma tends_to_plus (f g : Q -> Q) (A B : Q) :
  tends_to f A -> tends_to g B -> tends_to (fun x => f x + g x) (A + B).
Proof.
  intros Hf Hg eps Heps.
  destruct (Hf (eps * (1 # 2))) as [M1 H1]; [lra|].
  destruct (Hg (eps * (1 # 2))) as [M2 H2]; [lra|].
  exists (Qmax M1 M2). intros x Hx.
  assert (M1 <= x) by (eapply Qle_trans; [apply Q.le_max_l | exact Hx]).
  assert (M2 <= x) by (eapply Qle_trans; [apply Q.le_max_r | exact Hx]).
  specialize (H1 x ltac:(assumption)). specialize (H2 x ltac:(assumption)). lra.
Qed.

Lemma tends_to_scale (a : Q) (f : Q -> Q) :
  0 <= a -> tends_to f 1 -> tends_to (fun x => a * f x) a.
Proof.
  intros Ha Hf eps Heps.
  destruct (Hf (eps / (a + 1))) as [M HM].
  { apply Qlt_shift_div_l; lra. }
  exists M. intros x Hx. destruct (HM x Hx) as [Hlo Hhi].
  assert (Hbound : a * (eps / (a + 1)) < eps).
  { setoid_replace (a * (eps / (a + 1))) with (eps * (a / (a + 1))) by (field; lra).
    assert (a / (a + 1) < 1) by (apply Qlt_shift_div_r; lra).
    assert (0 <= a / (a + 1)) by (apply Qle_shift_div_l; lra).
    nra. }
  split; nra.
Qed.

Lemma tends_to_fold (t : nat -> Q -> Q) (A : nat -> Q) (l : list nat) :
  (forall i, In i l -> tends_to (t i) (A i)) ->
  forall (g : Q -> Q) (G : Q), tends_to g G ->
  tends_to (fun x => fold_left (fun acc i => acc + t i x) l (g x))
           (fold_left (fun acc i => acc + A i) l G).
Proof.
  induction l as [|i l IH]; intros Hl g G Hg; simpl.
  - exact Hg.
  - apply (IH (fun j Hj => Hl j (or_intror Hj)) (fun x => g x + t i x) (G + A i)).
    apply tends_to_plus; [exact Hg | apply Hl; now left].
Qed.

Lemma fold_nonneg (t : nat -> Q) (l : list nat) :
  (forall i, In i l -> 0 <= t i) ->
  forall acc, 0 <= acc -> 0 <= fold_left (fun a i => a + t i) l acc.
Proof.
  induction l as [|i l IH]; intros Hl acc Hacc; simpl; [exact Hacc|].
  apply IH; [intros j Hj; apply Hl; now right|].
  specialize (Hl i (or_introl eq_refl)). lra.
Qed.

Lemma fold_monotone (t : nat -> Q -> Q) (l : list nat) (x1 x2 : Q) :
  (forall i, In i l -> t i x1 <= t i x2) ->
  forall a1 a2, a1 <= a2 ->
  fold_left (fun a i => a + t i x1) l a1 <= fold_left (fun a i => a + t i x2) l a2.
Proof.
  induction l as [|i l IH]; intros Hl a1 a2 Ha; simpl; [exact Ha|].
  apply IH; [intros j Hj; apply Hl; now right|].
  specialize (Hl i (or_introl eq_refl)). lra.
Qed.

End Limits.

(** ** The model on finite parameters *)

(** A sum of finite terms is the finite sum. *)
Lemma sum_from_finite (f : nat -> outcome xnum) (t : nat -> Q) (l : list nat) :
  (forall i, In i l -> f i = Ok (Fin (t i))) ->
  forall acc, sum_from (Fin acc) (map f l) = Ok (Fin (fold_left (fun a i => a + t i) l acc)).
Proof.
  induction l as [|i l IH]; intros Hl acc; simpl; [reflexivity|].
  rewrite (Hl i (or_introl eq_refl)). simpl.
  apply IH. intros j Hj. apply Hl. now right.
Qed.

(** A component with a positive scale and a positive [ts], on a kernel that
    is finite on its domain, is a finite term. *)
Lemma component_term_finite (kernel : xnum -> xnum -> xnum -> xnum -> xnum)
      (kernelQ : Q -> Q -> Q -> Q -> Q) (x : Q) (qs : list Q) (i : nat) :
  (forall x K u s, 0 < K -> 0 < s ->
                   kernel (Fin x) (Fin K) (Fin u) (Fin s) = Fin (kernelQ x K u s)) ->
  0 < shared_ts qs -> 0 < scale qs i ->
  component_term kernel (Fin x) (map Fin qs) i =
  Ok (Fin (amplitude qs i *
           kernelQ x (shared_ts qs / scale qs i) (location qs i) (scale qs i))).
Proof.
  intros Hval Hts Hs.
  unfold component_term, shared_ts, scale, amplitude, location in *.
  change (@zero xnum xnum_scalar) with (Fin (@zero Q pyfloat_scalar)).
  rewrite last_map, !map_nth. simpl in *.
  rewrite (Qeq_bool_pos _ Hs).
  rewrite Hval; [reflexivity | | exact Hs].
  apply Qlt_shift_div_l; [exact Hs | lra].
Qed.

Section PositiveModel.

Variables pdf cdf : xnum -> xnum -> xnum -> xnum -> xnum.
Variables pdfQ cdfQ : Q -> Q -> Q -> Q -> Q.

(** What is used of [exponnorm]: on a positive shape and scale its density
    is finite and non-negative, and its distribution function is finite,
    non-decreasing and tends to 1. *)
Hypothesis pdf_value : forall x K u s, 0 < K -> 0 < s ->
  pdf (Fin x) (Fin K) (Fin u) (Fin s) = Fin (pdfQ x K u s).
Hypothesis pdf_nonneg : forall x K u s, 0 < K -> 0 < s -> 0 <= pdfQ x K u s.
Hypothesis cdf_value : forall x K u s, 0 < K -> 0 < s ->
  cdf (Fin x) (Fin K) (Fin u) (Fin s) = Fin (cdfQ x K u s).
Hypothesis cdf_monotone : forall x1 x2 K u s, 0 < K -> 0 < s ->
  x1 <= x2 -> cdfQ x1 K u s <= cdfQ x2 K u s.
Hypothesis cdf_limit : forall K u s, 0 < K -> 0 < s ->
  tends_to (fun x => cdfQ x K u s) 1.

(** C7, as the code has it: on a vector of length [3k+1], [k >= 1], with
    non-negative amplitudes, positive scales and a positive [ts], [exgauss]
    is non-negative at every [x], and [integral] is non-decreasing in [x]
    and converges to the sum of the amplitudes. *)
Theorem exgauss_nonneg_integral_monotone (qs : list Q) (k : nat) :
  (1 <= k)%nat -> length qs = (3 * k + 1)%nat ->
  0 < shared_ts qs ->
  (forall i, (i < k)%nat -> 0 <= amplitude qs i /\ 0 < scale qs i) ->
  (forall x, exists v, exgauss pdf (Fin x) (map Fin qs) = Ok (Fin v) /\ 0 <= v) /\
  (exists F : Q -> Q,
      (forall x, integral cdf (Fin x) (map Fin qs) = Ok (Fin (F x))) /\
      (forall x1 x2, x1 <= x2 -> F x1 <= F x2) /\
      tends_to F (total_amplitude qs k)).
Proof.
  intros _ Hlen Hts Hcomp.
  assert (Hlen' : length (map Fin qs) = (3 * k + 1)%nat) by now rewrite length_map.
  assert (Hshape : forall i, (i < k)%nat -> 0 < shared_ts qs / scale qs i).
  { intros i Hi. destruct (Hcomp i Hi) as [_ Hs].
    apply Qlt_shift_div_l; [exact Hs | lra]. }
  split.
  - intros x.
    set (t := fun i => amplitude qs i *
                       pdfQ x (shared_ts qs / scale qs i) (location qs i) (scale qs i)).
    exists (fold_left (fun a i => a + t i) (seq 0 k) 0). split.
    + unfold exgauss, _exgauss. rewrite (sum_by_components pdf (Fin x) _ k Hlen').
      unfold component_sum, py_sum. apply sum_from_finite.
      intros i Hi. apply in_seq in Hi.
      apply component_term_finite; [exact pdf_value | exact Hts | apply Hcomp; lia].
    + apply fold_nonneg; [|lra].
      intros i Hi. apply in_seq in Hi. unfold t.
      destruct (Hcomp i ltac:(lia)) as [Ha Hs].
      apply Qmult_le_0_compat; [exact Ha|].
      apply pdf_nonneg; [apply Hshape; lia | exact Hs].
  - set (t := fun i x => amplitude qs i *
                         cdfQ x (shared_ts qs / scale qs i) (location qs i) (scale qs i)).
    exists (fun x => fold_left (fun a i => a + t i x) (seq 0 k) 0).
    split; [|split].
    + intros x. unfold integral, single_integral.
      rewrite (sum_by_components cdf (Fin x) _ k Hlen').
      unfold component_sum, py_sum.
      apply (sum_from_finite _ (fun i => t i x)).
      intros i Hi. apply in_seq in Hi.
      apply component_term_finite; [exact cdf_value | exact Hts | apply Hcomp; lia].
    + intros x1 x2 Hx. apply fold_monotone; [|lra].
      intros i Hi. apply in_seq in Hi. unfold t.
      destruct (Hcomp i ltac:(lia)) as [Ha Hs].
      assert (Hc := cdf_monotone x1 x2 _ (location qs i) _ (Hshape i ltac:(lia)) Hs Hx).
      nra.
    + unfold total_amplitude.
      apply (tends_to_fold t (amplitude qs) (seq 0 k)); [|apply tends_to_const].
      intros i Hi. apply in_seq in Hi. unfold t.
      destruct (Hcomp i ltac:(lia)) as [Ha Hs].
      apply tends_to_scale; [exact Ha|].
      apply cdf_limit; [apply Hshape; lia | exact Hs].
Qed.

End PositiveModel.

(** The uniform distribution meets the five requirements. *)

Lemma unif_pdf_value (x K u s : Q) :
  0 < K -> 0 < s -> unif_pdf (Fin x) (Fin K) (Fin u) (Fin s) = Fin (unif_pdfQ x K u s).
Proof.
  intros HK Hs. unfold unif_pdf, unif_pdfQ.
  apply Qltb_lt in HK, Hs. rewrite HK, Hs. simpl.
  now destruct (Qle_bool u x && Qle_bool x (u + s)).
Qed.

Lemma unif_pdfQ_nonneg (x K u s : Q) : 0 < K -> 0 < s -> 0 <= unif_pdfQ x K u s.
Proof.
  intros _ Hs. unfold unif_pdfQ.
  destruct (Qle_bool u x && Qle_bool x (u + s)); [|lra].
  apply Qle_shift_div_l; lra.
Qed.

Lemma unif_cdf_value (x K u s : Q) :
  0 < K -> 0 < s -> unif_cdf (Fin x) (Fin K) (Fin u) (Fin s) = Fin (unif_cdfQ x K u s).
Proof.
  intros HK Hs. unfold unif_cdf, unif_cdfQ.
  apply Qltb_lt in HK, Hs. rewrite HK, Hs. simpl.
  destruct (Qltb x u); [reflexivity|].
  now destruct (Qle_bool x (u + s)).
Qed.

Lemma unif_cdfQ_monotone (x1 x2 K u s : Q) :
  0 < K -> 0 < s -> x1 <= x2 -> unif_cdfQ x1 K u s <= unif_cdfQ x2 K u s.
Proof.
  intros _ Hs Hx. unfold unif_cdfQ.
  assert (Hdiv : forall a b, a <= b -> a / s <= b / s).
  { intros a b Hab. apply Qle_shift_div_l; [exact Hs|].
    setoid_replace (a / s * s) with a by (field; lra). exact Hab. }
  assert (H0 : 0 / s == 0) by (field; lra).
  assert (H1 : s / s == 1) by (field; lra).
  qcases; try lra.
  - rewrite <- H0. apply Hdiv. lra.
  - apply Hdiv. lra.
  - rewrite <- H1. apply Hdiv. lra.
Qed.

Lemma unif_cdfQ_limit (K u s : Q) :
  0 < K -> 0 < s -> tends_to (fun x => unif_cdfQ x K u s) 1.
Proof.
  intros _ Hs eps Heps. exists (u + s + 1). intros x Hx.
  unfold unif_cdfQ. qcases; lra.
Qed.

Lemma exgauss_nonneg_integral_monotone_witness :
  (forall x, exists v,
      exgauss unif_pdf (Fin x) (map Fin [2; 0; 1; 1; 3; 5; 2]) = Ok (Fin v) /\ 0 <= v) /\
  (exists F : Q -> Q,
      (forall x, integral unif_cdf (Fin x) (map Fin [2; 0; 1; 1; 3; 5; 2]) = Ok (Fin (F x))) /\
      (forall x1 x2, x1 <= x2 -> F x1 <= F x2) /\
      tends_to F (total_amplitude [2; 0; 1; 1; 3; 5; 2] 2)).
Proof.
  apply (exgauss_nonneg_integral_monotone
           unif_pdf unif_cdf unif_pdfQ unif_cdfQ
           unif_pdf_value unif_pdfQ_nonneg unif_cdf_value
           unif_cdfQ_monotone unif_cdfQ_limit
           [2; 0; 1; 1; 3; 5; 2] 2).
  - lia.
  - reflexivity.
  - reflexivity.
  - intros [|[|i]] Hi; [split; vm_compute; first [reflexivity | discriminate] .. | lia].
Defined.

(** C7 as stated fails: the length alone does not make the model
    non-negative.  One component of amplitude -1 gives [exgauss] the value
    -1 at 0. *)
Lemma exgauss_negative_amplitude :
  length (map Fin [-1; 0; 1; 1]) = (3 * 1 + 1)%nat /\
  exists v, exgauss unif_pdf (Fin 0) (map Fin [-1; 0; 1; 1]) = Ok (Fin v) /\ v < 0.
Proof.
  split; [reflexivity|].
  exists (0 + -1 * (1 / 1)). split; [reflexivity | reflexivity].
Qed.

(** The same on any density: one component of negative amplitude makes
    [exgauss] negative wherever the density is positive. *)
Lemma exgauss_negative_for_any_density
      (pdf : xnum -> xnum -> xnum -> xnum -> xnum) (x a u s ts p : Q) :
  0 < s ->
  pdf (Fin x) (Fin (ts / s)) (Fin u) (Fin s) = Fin p -> 0 < p -> a < 0 ->
  exists v, exgauss pdf (Fin x) (map Fin [a; u; s; ts]) = Ok (Fin v) /\ v < 0.
Proof.
  intros Hs Hp Hpos Ha. exists (0 + a * p). split; [|nra].
  unfold exgauss, py_sum, star_call, _exgauss. simpl.
  rewrite (Qeq_bool_pos _ Hs), Hp. reflexivity.
Qed.

(** ** The integral as a running area *)













(** ** The trapezoid area in exact arithmetic *)

Lemma trapz_cons2 (a b : Q) (r : list Q) :
  trapz (a :: b :: r) == (b + a) * (1 # 2) + trapz (b :: r).
Proof. change (1 * (b + a) / 2 + trapz (b :: r) == (b + a) * (1 # 2) + trapz (b :: r)). field. Qed.

Lemma Qsum_cons (a : Q) (l : list Q) : Qsum (a :: l) == a + Qsum l.
Proof.
  unfold Qsum. simpl.
  assert (Hshift : forall l acc, fold_left Qplus l acc == acc + fold_left Qplus l 0).
  { clear. induction l as [|b l IH]; intros acc; simpl; [ring|].
    rewrite (IH (acc + b)), (IH (0 + b)). ring. }
  rewrite Hshift. ring.
Qed.

Lemma last_default {A : Type} (l : list A) (a b : A) : l <> [] -> last l a = last l b.
Proof.
  induction l as [|x [|y r] IH]; intros Hne; [congruence | reflexivity |].
  apply IH. discriminate.
Qed.

(** With unit spacing the trapezoid area is the sum of the samples less
    half of the first and half of the last one. *)
Lemma trapz_closed_form (a : Q) (ys : list Q) :
  trapz (a :: ys) == Qsum (a :: ys) - (a + last ys a) * (1 # 2).
Proof.
  revert a. induction ys as [|b r IH]; intros a.
  - rewrite Qsum_cons. unfold Qsum. simpl. ring.
  - rewrite trapz_cons2, IH, !Qsum_cons.
    replace (last (b :: r) a) with (last r b)
      by (destruct r as [|c r']; [reflexivity|];
          change (last (b :: c :: r') a) with (last (c :: r') a);
          apply last_default; discriminate).
    ring.
Qed.

(** ** The raw scan *)

Lemma cumulative_beyond (ys : list Q) (i : nat) :
  (length ys <= i)%nat -> cumulative ys i = trapz ys.
Proof. intros Hi. unfold cumulative. now rewrite firstn_all2. Qed.

(** What a scan that stops has found. *)
Lemma raw_scan_sound (ys : list Q) (threshold : Q) (fuel : nat) :
  forall i j, raw_scan fuel ys threshold i = Ok j ->
  (i <= j)%nat /\ threshold <= cumulative ys j /\
  forall m, (i <= m < j)%nat -> cumulative ys m < threshold.
Proof.
  induction fuel as [|fuel IH]; intros i j Hscan; simpl in Hscan; [discriminate|].
  fold (cumulative ys i) in Hscan.
  destruct (Qltb (cumulative ys i) threshold) eqn:E.
  - apply Qltb_lt in E. destruct (IH _ _ Hscan) as (Hij & Hj & Hbelow).
    split; [lia|]. split; [exact Hj|].
    intros m Hm. destruct (Nat.eq_dec m i) as [->|Hne]; [exact E|].
    apply Hbelow. lia.
  - apply Qltb_ge in E. injection Hscan as <-.
    split; [lia|]. split; [exact E|]. intros m Hm. lia.
Qed.

(** A scan stops at or before any index that reaches the threshold, given
    the steps to get there. *)
Lemma raw_scan_complete (ys : list Q) (threshold : Q) (j : nat) :
  threshold <= cumulative ys j ->
  forall fuel i, (i <= j)%nat -> (j - i < fuel)%nat ->
  exists j', raw_scan fuel ys threshold i = Ok j' /\ (j' <= j)%nat.
Proof.
  intros Hj. induction fuel as [|fuel IH]; intros i Hij Hfuel; [lia|].
  simpl. fold (cumulative ys i).
  destruct (Qltb (cumulative ys i) threshold) eqn:E.
  - apply Qltb_lt in E.
    assert (i <> j) by (intros ->; lra).
    apply IH; lia.
  - exists i. split; [reflexivity | exact Hij].
Qed.


(** The two thresholds of a central fraction. *)
Lemma thresholds_of_fraction (area total : Q) :
  0 <= area -> area <= 1 ->
  let low_area := (1 - area) / 2 * total in
  let high_area := (1 + area) / 2 * total in
  (0 <= total -> low_area <= high_area /\ high_area <= total) /\
  (total <= 0 -> low_area <= 0 /\ high_area <= 0).
Proof.
  intros H0 H1 low_area high_area.
  assert (Hl : low_area == (1 - area) * (1 # 2) * total) by (unfold low_area; field).
  assert (Hh : high_area == (1 + area) * (1 # 2) * total) by (unfold high_area; field).
  split; intros Ht; split; nra.
Qed.

(** ** The raw range in any arithmetic *)

Section RawWindow.

Context {T : Type} `{Floating T}.

Lemma area_beyond (ys : list T) (i : nat) :
  (length ys <= i)%nat -> area_up_to ys i = area_up_to ys (length ys).
Proof. intros Hi. unfold area_up_to. now rewrite !firstn_all2. Qed.

(** What a scan that stops has found: the loop condition fails where it
    stopped and held at every index passed. *)
Lemma raw_scan_stops (ys : list T) (threshold : T) (fuel : nat) :
  forall i j, raw_scan fuel ys threshold i = Ok j ->
  (i <= j)%nat /\ less (area_up_to ys j) threshold = false /\
  forall m, (i <= m < j)%nat -> less (area_up_to ys m) threshold = true.
Proof.
  induction fuel as [|fuel IH]; intros i j Hscan; cbn [raw_scan] in Hscan; [discriminate|].
  fold (area_up_to ys i) in Hscan.
  destruct (less (area_up_to ys i) threshold) eqn:E.
  - destruct (IH _ _ Hscan) as (Hij & Hj & Hbelow).
    split; [lia|]. split; [exact Hj|].
    intros m Hm. destruct (Nat.eq_dec m i) as [->|Hne]; [exact E|].
    apply Hbelow. lia.
  - injection Hscan as <-.
    split; [lia|]. split; [exact E|]. intros m Hm. lia.
Qed.

(** A scan stops at or before any index where the loop condition fails,
    given the steps to get there. *)
Lemma raw_scan_reaches (ys : list T) (threshold : T) (j : nat) :
  less (area_up_to ys j) threshold = false ->
  forall fuel i, (i <= j)%nat -> (j - i < fuel)%nat ->
  exists j', raw_scan fuel ys threshold i = Ok j' /\ (j' <= j)%nat.
Proof.
  intros Hj. induction fuel as [|fuel IH]; intros i Hij Hfuel; [lia|].
  cbn [raw_scan]. fold (area_up_to ys i).
  destruct (less (area_up_to ys i) threshold) eqn:E.
  - assert (i <> j) by (intros ->; congruence).
    apply IH; lia.
  - exists i. split; [reflexivity | exact Hij].
Qed.

(** The order of the numbers: [a < b] is false exactly when [b <= a] (no
    [nan] among them). *)
Variable le : T -> T -> Prop.
Hypothesis less_le : forall a b, less a b = false <-> le b a.

Lemma reached_within (ys : list T) (threshold : T) :
  (exists i, le threshold (area_up_to ys i)) ->
  exists i, (i <= length ys)%nat /\ less (area_up_to ys i) threshold = false.
Proof.
  intros [i Hi]. destruct (le_lt_dec i (length ys)) as [Hle|Hgt].
  - exists i. split; [exact Hle | now apply less_le].
  - exists (length ys). split; [lia|]. apply less_le.
    now rewrite <- (area_beyond ys i) by lia.
Qed.

(** C3: for every intensity sequence whose cumulative area reaches both
    thresholds (the lower one not above the upper one), [raw_burst_range]
    finds the smallest index [low] whose cumulative area is at least
    [(1 - area) / 2 * total] and the smallest index [high] whose cumulative
    area is at least [(1 + area) / 2 * total], and returns
    [low - width] if that is above 0, else 0, and [high + width] if that is
    below the length, else the length, with
    [width = (high - low) * extra_width].  It holds in every arithmetic:
    areas, thresholds and bounds are the numbers the code computes. *)
Theorem raw_burst_range_central_window (ys : list T) (area extra_width : T) (fuel : nat) :
  (exists i, le (lower_threshold ys area) (area_up_to ys i)) ->
  (exists j, le (upper_threshold ys area) (area_up_to ys j)) ->
  (forall a, le (upper_threshold ys area) a -> le (lower_threshold ys area) a) ->
  (length ys < fuel)%nat ->
  exists low high : nat,
    first_index_reaching le ys (lower_threshold ys area) low /\
    first_index_reaching le ys (upper_threshold ys area) high /\
    (low <= high <= length ys)%nat /\
    let width := mul (from_int (Z.of_nat high - Z.of_nat low)) extra_width in
    let below := minus (from_int (Z.of_nat low)) width in
    let above := add (from_int (Z.of_nat high)) width in
    raw_burst_range fuel ys area extra_width =
    Ok (if less (from_int 0) below then below else from_int 0,
        if less above (from_int (Py.len ys)) then above else from_int (Py.len ys)).
Proof.
  intros Hlow Hhigh Hord Hfuel.
  destruct (reached_within _ _ Hlow) as (i & Hi & Ei).
  destruct (reached_within _ _ Hhigh) as (j & Hj & Ej).
  destruct (raw_scan_reaches ys _ i Ei fuel 0 ltac:(lia) ltac:(lia)) as (low & Slow & Hlowi).
  destruct (raw_scan_stops _ _ _ _ _ Slow) as (_ & Elow & Blow).
  assert (Hlowj : (low <= j)%nat).
  { destruct (le_lt_dec low j) as [Hle|Hgt]; [exact Hle|].
    specialize (Blow j ltac:(lia)).
    apply less_le, Hord, less_le in Ej. congruence. }
  destruct (raw_scan_reaches ys _ j Ej fuel low Hlowj ltac:(lia)) as (high & Shigh & Hhighj).
  destruct (raw_scan_stops _ _ _ _ _ Shigh) as (Hlh & Ehigh & Bhigh).
  exists low, high. split; [|split; [|split]].
  - split; [now apply less_le|].
    intros m Hm Hle. apply less_le in Hle. rewrite Blow in Hle by lia. discriminate.
  - split; [now apply less_le|].
    intros m Hm Hle. destruct (le_lt_dec low m) as [Hge|Hlt].
    + apply less_le in Hle. rewrite Bhigh in Hle by lia. discriminate.
    + apply Hord, less_le in Hle. rewrite Blow in Hle by lia. discriminate.
  - lia.
  - cbv zeta. unfold raw_burst_range. cbv zeta.
    fold (lower_threshold ys area). fold (upper_threshold ys area).
    rewrite Slow. cbn [bind]. rewrite Shigh. cbn [bind]. reflexivity.
Qed.

End RawWindow.

(** The run of the code on seven samples with [area = 9/10] and
    [extra_width = 1/4], in exact arithmetic: the total area is 12, the
    thresholds are 3/5 and 57/5, the scans stop at 3 and 6, the width is 3/4
    and the bounds returned are 9/4 and 27/4. *)
Lemma raw_burst_range_central_window_witness :
  (exists low high : nat,
     first_index_reaching Qle [0; 1; 3; 4; 3; 1; 0]
                          (lower_threshold [0; 1; 3; 4; 3; 1; 0] (9 # 10)) low /\
     first_index_reaching Qle [0; 1; 3; 4; 3; 1; 0]
                          (upper_threshold [0; 1; 3; 4; 3; 1; 0] (9 # 10)) high /\
     (low <= high <= length [0; 1; 3; 4; 3; 1; 0]%Q)%nat /\
     let width := mul (from_int (Z.of_nat high - Z.of_nat low)) (1 # 4) in
     let below := minus (from_int (Z.of_nat low)) width in
     let above := add (from_int (Z.of_nat high)) width in
     raw_burst_range 8 [0; 1; 3; 4; 3; 1; 0] (9 # 10) (1 # 4) =
     Ok (if less (from_int 0) below then below else from_int 0,
         if less above (from_int (Py.len [0; 1; 3; 4; 3; 1; 0]%Q)) then above
         else from_int (Py.len [0; 1; 3; 4; 3; 1; 0]%Q))) /\
  first_index_reaching Qle [0; 1; 3; 4; 3; 1; 0] (3 # 5) 3 /\
  first_index_reaching Qle [0; 1; 3; 4; 3; 1; 0] (57 # 5) 6 /\
  raw_burst_range 8 [0; 1; 3; 4; 3; 1; 0] (9 # 10) (1 # 4) = Ok (9 # 4, 27 # 4).
Proof.
  split; [|split; [|split]].
  - apply (@raw_burst_range_central_window
             Q pyfloat_scalar exact_rational Qle Qltb_ge
             [0; 1; 3; 4; 3; 1; 0] (9 # 10) (1 # 4) 8).
    + exists 7%nat. vm_compute. discriminate.
    + exists 7%nat. vm_compute. discriminate.
    + intros a Ha. apply Qle_trans with (2 := Ha). vm_compute. discriminate.
    + simpl. lia.
  - split; [vm_compute; discriminate|].
    intros [|[|[|m]]] Hm Hle; [vm_compute in Hle; now apply Hle .. | lia].
  - split; [vm_compute; discriminate|].
    intros [|[|[|[|[|[|m]]]]]] Hm Hle; [vm_compute in Hle; now apply Hle .. | lia].
  - reflexivity.
Defined.

(** In exact arithmetic the premises hold for every central fraction of a
    non-negative total area: both thresholds are reached at the end of the
    array at the latest, and the lower one is not above the upper one. *)
Lemma central_fraction_premises (ys : list Q) (area : Q) :
  0 <= area -> area <= 1 -> 0 <= trapz ys ->
  (exists i, lower_threshold ys area <= area_up_to ys i) /\
  (exists j, upper_threshold ys area <= area_up_to ys j) /\
  (forall a, upper_threshold ys area <= a -> lower_threshold ys area <= a).
Proof.
  intros H0 H1 Htot.
  destruct (thresholds_of_fraction area (trapz ys) H0 H1) as [Hpos _].
  cbv zeta in Hpos. destruct (Hpos Htot) as [Hlh Hht].
  unfold lower_threshold, upper_threshold, area_up_to. exact_arith.
  split; [|split].
  - exists (length ys). rewrite firstn_all. lra.
  - exists (length ys). rewrite firstn_all. exact Hht.
  - intros a Ha. lra.
Qed.

(** The run of the witness: the scans stop at 3 and 6, and the bounds
    returned are 9/4 and 27/4. *)
Example raw_burst_range_run :
  raw_burst_range 8 [0; 1; 3; 4; 3; 1; 0] (9 # 10) (1 # 4) = Ok (9 # 4, 27 # 4).
Proof. reflexivity. Qed.

Lemma trapz_zeros (ys : list Q) : Forall (fun y => y == 0) ys -> trapz ys == 0.
Proof.
  induction 1 as [|a ys Ha Hys IH]; [reflexivity|].
  destruct Hys as [|b ys Hb Hys]; [reflexivity|].
  change (1 * (b + a) / 2 + trapz (b :: ys) == 0).
  rewrite IH, Ha, Hb. reflexivity.
Qed.

(** C4, as the code has it: on an empty or all-zero array, and on any input
    of zero total area, [raw_burst_range] raises nothing; each loop
    condition is tested once and the pair (0, 0) is returned. *)
Theorem raw_burst_range_zero_area (ys : list Q) (area extra_width : Q) (fuel : nat) :
  (0 < fuel)%nat ->
  Forall (fun y => y == 0) ys \/ trapz ys == 0 ->
  exists lo hi, raw_burst_range fuel ys area extra_width = Ok (lo, hi) /\
                lo == 0 /\ hi == 0.
Proof.
  intros Hfuel Hzero.
  assert (Htot : trapz ys == 0) by (destruct Hzero; [now apply trapz_zeros | assumption]).
  destruct fuel as [|fuel]; [lia|].
  assert (Hscan : forall c, raw_scan (S fuel) ys (c * trapz ys) 0 = Ok 0%nat).
  { intros c. simpl.
    replace (Qltb 0 (c * trapz ys)) with false; [reflexivity|].
    symmetry. apply Qltb_ge. rewrite Htot. lra. }
  unfold raw_burst_range. exact_arith. cbv zeta.
  rewrite Hscan. cbn [bind]. rewrite Hscan. cbn [bind].
  eexists. eexists. split; [reflexivity|].
  change (Z.of_nat 0 - Z.of_nat 0)%Z with 0%Z.
  change (inject_Z (Z.of_nat 0)) with 0. change (inject_Z 0) with 0.
  assert (Hlen : 0 <= inject_Z (Py.len ys)).
  { unfold Py.len. change 0 with (inject_Z 0). rewrite <- Zle_Qle. lia. }
  unfold py_max, py_min. exact_arith. split; qcases; lra.
Qed.

Lemma raw_burst_range_zero_area_witness :
  exists lo hi, raw_burst_range 1 [0; 0; 0] (9 # 10) (1 # 2) = Ok (lo, hi) /\
                lo == 0 /\ hi == 0.
Proof.
  apply (raw_burst_range_zero_area [0; 0; 0] (9 # 10) (1 # 2) 1).
  - lia.
  - left. repeat constructor.
Defined.

(** C4 as stated fails: nothing is raised on an all-zero or an empty array;
    a pair of zeros is returned. *)
Lemma raw_burst_range_returns_on_zeros :
  raw_burst_range 1 [0; 0; 0] (9 # 10) (1 # 2) = Ok (0, 0 # 2) /\
  raw_burst_range 1 [] (9 # 10) (1 # 2) = Ok (0, 0).
Proof. split; reflexivity. Qed.

(** ** Integral and fractional bounds *)





(** In that run the width is 3/4 and both bounds are fractions. *)
Example raw_burst_range_fractional :
  raw_burst_range 8 [0; 1; 3; 4; 3; 1; 0] (9 # 10) (1 # 4) = Ok (9 # 4, 27 # 4) /\
  ~ Qis_int (9 # 4) /\ ~ Qis_int (27 # 4).
Proof.
  split; [reflexivity|].
  split; intros [z Hz]; unfold Qeq in Hz; simpl in Hz; lia.
Qed.

(** ** The model scan *)

Lemma index_of_nat {A : Type} (l : list A) (i : nat) :
  Py.index l (Z.of_nat i) =
  match nth_error l i with
  | Some a => Ok a
  | None => Raise IndexError
  end.
Proof.
  unfold Py.index. cbv zeta.
  replace (Z.of_nat i <? 0)%Z with false by (symmetry; apply Z.ltb_ge; lia).
  replace (0 <=? Z.of_nat i)%Z with true by (symmetry; apply Z.leb_le; lia).
  rewrite Nat2Z.id. cbn [andb].
  destruct (Z.of_nat i <? Z.of_nat (length l))%Z eqn:E; [reflexivity|].
  apply Z.ltb_ge in E.
  replace (nth_error l i) with (@None A); [reflexivity|].
  symmetry. apply nth_error_None. lia.
Qed.

(** ** Burst ranges *)

(** What the raw scan does enclose: counted from the sample before [low],
    the area up to [high] exceeds the fraction [area] of the total. *)
Lemma raw_window_previous_sample (fuel : nat) (ys : list Q) (area : Q) (low high : nat) :
  raw_scan fuel ys ((1 - area) / 2 * trapz ys) 0 = Ok low ->
  raw_scan fuel ys ((1 + area) / 2 * trapz ys) low = Ok high ->
  (0 < low)%nat ->
  area * trapz ys < cumulative ys high - cumulative ys (low - 1).
Proof.
  intros Hlow Hhigh Hpos.
  destruct (raw_scan_sound _ _ _ _ _ Hlow) as (_ & _ & Hbelow).
  destruct (raw_scan_sound _ _ _ _ _ Hhigh) as (_ & Hh & _).
  specialize (Hbelow (low - 1)%nat ltac:(lia)).
  assert (Hgap : (1 + area) / 2 * trapz ys - (1 - area) / 2 * trapz ys == area * trapz ys)
    by field.
  lra.
Qed.

(** On a single sample a model of finite non-negative total gives the
    range [(0, 0)], whatever the distribution: both thresholds are at most
    the integral at that sample. *)
Lemma model_burst_range_single_sample
      (cdf : xnum -> xnum -> xnum -> xnum -> xnum)
      (x0 : xnum) (params : list xnum) (t area : Q) (fuel : nat) :
  (0 < fuel)%nat -> integral cdf x0 params = Ok (Fin t) ->
  0 <= t -> 0 <= area -> area <= 1 ->
  model_burst_range cdf fuel [x0] params (Fin area) = Ok (0%nat, 0%nat).
Proof.
  intros Hfuel Hint Ht H0 H1.
  destruct (thresholds_of_fraction area t H0 H1) as [Hpos _].
  cbv zeta in Hpos. destruct (Hpos Ht) as [Hlh Hht].
  unfold model_burst_range. exact_arith.
  change (Py.index [x0] (-1)) with (@Ok xnum x0). cbn [bind].
  rewrite Hint. cbn [bind].
  change (xmul (xdiv (xsub (of_int 1) (Fin area)) (of_int 2)) (Fin t))
    with (Fin ((1 - area) / 2 * t)).
  change (xmul (xdiv (xadd (of_int 1) (Fin area)) (of_int 2)) (Fin t))
    with (Fin ((1 + area) / 2 * t)).
  destruct fuel as [|fuel]; [lia|].
  assert (Hscan : forall thr, thr <= t ->
                              model_scan cdf (S fuel) [x0] params (Fin thr) 0 = Ok 0%nat).
  { intros thr Hthr. cbn [model_scan].
    change (Py.index [x0] (Z.of_nat 0)) with (@Ok xnum x0). cbn [bind].
    rewrite Hint. cbn [bind]. exact_arith. cbn [xlt].
    replace (Qltb t thr) with false; [reflexivity|].
    symmetry. now apply Qltb_ge. }
  rewrite (Hscan _ (Qle_trans _ _ _ Hlh Hht)). cbn [bind].
  rewrite (Hscan _ Hht). reflexivity.
Qed.

(** C8: the code at inputs where a range it returns breaks the invariant
    (and, in raw mode, the docstring "finds the middle range containing
    [area] proportion of total area").  On the one-sample spike
    [0, 0, 0, 5, 0, 0, 0] with [area = 9/10] the scans stop at 4 and 5, the
    range returned without extension is (4, 5), and the area between the
    two is 5/2, where nine tenths of the total are 9/2.  On [0, 1] the range
    is (2, 2), and model mode on a single sample gives (0, 0): [low < high]
    fails. *)
Theorem burst_range_misses_fraction :
  (raw_scan 8 [0; 0; 0; 5; 0; 0; 0] ((1 - (9 # 10)) / 2 * trapz [0; 0; 0; 5; 0; 0; 0]) 0
   = Ok 4%nat /\
   raw_scan 8 [0; 0; 0; 5; 0; 0; 0] ((1 + (9 # 10)) / 2 * trapz [0; 0; 0; 5; 0; 0; 0]) 4
   = Ok 5%nat /\
   raw_burst_range 8 [0; 0; 0; 5; 0; 0; 0] (9 # 10) 0 = Ok (4, 5) /\
   cumulative [0; 0; 0; 5; 0; 0; 0] 5 - cumulative [0; 0; 0; 5; 0; 0; 0] 4 == 5 # 2 /\
   (9 # 10) * trapz [0; 0; 0; 5; 0; 0; 0] == 9 # 2) /\
  (exists lo hi, raw_burst_range 3 [0; 1] (9 # 10) (1 # 2) = Ok (lo, hi) /\
                 lo == 2 /\ hi == 2) /\
  model_burst_range unif_cdf 2 [Fin 1] (map Fin [1; 0; 1; 1]) (Fin (9 # 10))
  = Ok (0%nat, 0%nat).
Proof.
  split; [|split].
  - repeat split; reflexivity.
  - eexists. eexists. repeat split; reflexivity.
  - reflexivity.
Qed.

(** Outside the fractions the second threshold can lie above the total
    area; the loop then never ends. *)
Lemma raw_scan_unreachable (ys : list Q) (threshold : Q) :
  (forall i, cumulative ys i < threshold) ->
  forall fuel i, raw_scan fuel ys threshold i = OutOfFuel.
Proof.
  intros Hbelow. induction fuel as [|fuel IH]; intros i; simpl; [reflexivity|].
  fold (cumulative ys i).
  replace (Qltb (cumulative ys i) threshold) with true
    by (symmetry; apply Qltb_lt, Hbelow).
  apply IH.
Qed.

Example raw_burst_range_area_two :
  forall fuel, raw_burst_range fuel [0; 2; 0] 2 0 = OutOfFuel.
Proof.
  intros fuel. unfold raw_burst_range. exact_arith. cbv zeta.
  destruct fuel as [|fuel]; [reflexivity|].
  replace (raw_scan (S fuel) [0; 2; 0] ((1 - 2) / 2 * trapz [0; 2; 0]) 0) with (@Ok nat 0%nat)
    by reflexivity.
  cbn [bind]. rewrite raw_scan_unreachable; [reflexivity|].
  intros [|[|[|[|i]]]]; reflexivity.
Qed.

(** The model scan always ends: it stops, or [xs[i]] runs off the array. *)
Lemma sum_from_halts {T : Type} `{Scalar T} (g : list (outcome T)) :
  Forall (fun c => c <> OutOfFuel) g -> forall acc, sum_from acc g <> OutOfFuel.
Proof.
  induction 1 as [|c g Hc Hg IH]; intros acc; simpl; [discriminate|].
  destruct c as [v| |]; cbn [bind]; [apply IH | discriminate | congruence].
Qed.

Lemma integral_halts (cdf : xnum -> xnum -> xnum -> xnum -> xnum) (x : xnum) (params : list xnum) :
  integral cdf x params <> OutOfFuel.
Proof.
  unfold integral, py_sum. apply sum_from_halts.
  apply Forall_forall. intros c Hc. apply in_map_iff in Hc as (i & <- & _).
  unfold star_call, Py.index. cbv zeta.
  destruct (_ && _)%bool; [|discriminate].
  destruct (nth_error params _); cbn [bind]; [|discriminate].
  destruct (Py.slice params i (i + 3)) as [|a [|u [|sd [|? ?]]]]; discriminate.
Qed.

Lemma model_scan_halts (cdf : xnum -> xnum -> xnum -> xnum -> xnum)
      (xs params : list xnum) (threshold : xnum) :
  forall fuel i, (0 < fuel)%nat -> (length xs < i + fuel)%nat ->
  model_scan cdf fuel xs params threshold i <> OutOfFuel.
Proof.
  induction fuel as [|fuel IH]; intros i Hpos Hfuel; [lia|]. simpl.
  rewrite index_of_nat.
  destruct (nth_error xs i) as [x|] eqn:Ex; cbn [bind]; [|discriminate].
  assert (i < length xs)%nat by (apply nth_error_Some; congruence).
  destruct (integral cdf x params) as [v| |] eqn:Ev; cbn [bind]; try discriminate.
  - destruct (xlt v threshold); [apply IH; lia | discriminate].
  - now apply integral_halts in Ev.
Qed.

Lemma model_burst_range_halts (cdf : xnum -> xnum -> xnum -> xnum -> xnum)
      (fuel : nat) (xs params : list xnum) (area : xnum) :
  (length xs < fuel)%nat -> model_burst_range cdf fuel xs params area <> OutOfFuel.
Proof.
  intros Hfuel. unfold model_burst_range. exact_arith.
  destruct (Py.index xs (-1)) as [x_last| |] eqn:Elast; cbn [bind]; try discriminate.
  - destruct (integral cdf x_last params) as [total| |] eqn:Etot; cbn [bind];
      [| discriminate | now apply integral_halts in Etot].
    destruct (model_scan cdf fuel xs params _ 0) as [low| |] eqn:Elow; cbn [bind];
      [| discriminate | apply model_scan_halts in Elow; [contradiction | lia | lia]].
    destruct (model_scan cdf fuel xs params _ low) as [high| |] eqn:Ehigh; cbn [bind];
      [discriminate | discriminate |].
    apply model_scan_halts in Ehigh; [contradiction | lia | lia].
  - unfold Py.index in Elast. cbv zeta in Elast.
    destruct (_ && _)%bool; [|discriminate].
    destruct (nth_error xs _); discriminate.
Qed.

(** ** Fit statistics *)

(** *** Special values propagate *)




Lemma xinf_nonfinite (c : comparison) : xfinite (xinf c) = false.
Proof. now destruct c. Qed.

Lemma xsub_finite_inv (a : Q) (x : xnum) (r : Q) :
  xsub (Fin a) x = Fin r -> exists d, x = Fin d /\ r = a - d.
Proof.
  destruct x as [d| | |]; simpl; try discriminate.
  intros Heq. injection Heq as <-. now exists d.
Qed.


(** *** Sums of squares *)

Lemma xnonneg_square (v : xnum) : xnonneg (xmul v v).
Proof.
  destruct v as [q| | |]; simpl; try exact I.
  nra.
Qed.

Lemma xnonneg_sum (l : list xnum) :
  Forall xnonneg l -> forall acc, xnonneg acc -> xnonneg (fold_left xadd l acc).
Proof.
  induction 1 as [|v l Hv Hl IH]; intros acc Hacc; simpl; [exact Hacc|].
  apply IH. destruct acc, v; simpl in *; try exact I; try contradiction. lra.
Qed.

Lemma xnonneg_sum_squares (l : list xnum) : xnonneg (np_sum (np_square l)).
Proof.
  unfold np_sum, np_square. exact_arith. apply xnonneg_sum; [|simpl; lra].
  apply Forall_forall. intros v Hv. apply in_map_iff in Hv as (w & <- & _).
  apply xnonneg_square.
Qed.

Lemma xdiv_nonneg (a b : xnum) (d : Q) :
  xnonneg a -> xnonneg b -> xdiv a b = Fin d -> 0 <= d.
Proof.
  destruct a as [p| | |], b as [q| | |]; simpl; try discriminate; try contradiction;
    intros Ha Hb Heq.
  - destruct (Qeq_bool q 0) eqn:E.
    + destruct (p ?= 0); discriminate.
    + injection Heq as <-.
      assert (~ q == 0) by (intros Hq; apply Qeq_bool_iff in Hq; congruence).
      apply Qle_shift_div_l; lra.
  - injection Heq as <-. lra.
  - destruct (Qltb q 0); discriminate.
Qed.

(** [R^2] is at most 1 whenever it is a number. *)
Lemma rsquared_le_1 (pdf : xnum -> xnum -> xnum -> xnum -> xnum)
      (xs ys params : list xnum) (r : Q) :
  rsquared pdf xs ys params = Ok (Fin r) -> r <= 1.
Proof.
  unfold rsquared. exact_arith.
  destruct (list_comp _ xs) as [model| |]; cbn [bind]; try discriminate.
  destruct (np_sub ys model) as [residuals| |]; cbn [bind]; try discriminate.
  intros Heq. injection Heq as Heq.
  apply xsub_finite_inv in Heq as (d & Hd & ->).
  apply xdiv_nonneg in Hd; [| apply xnonneg_sum_squares ..].
  change (inject_Z 1) with 1. lra.
Qed.

(** In every arithmetic [rsquared] is [1 - ss_res / ss_tot], the two sums
    of squares being NumPy's of the residuals and of the deviations from
    NumPy's mean. *)
Lemma rsquared_value {T : Type} `{Floating T} (pdf : T -> T -> T -> T -> T)
      (xs ys params model residuals : list T) :
  list_comp (fun x => exgauss pdf x params) xs = Ok model ->
  np_sub ys model = Ok residuals ->
  rsquared pdf xs ys params =
  Ok (minus (from_int 1)
            (quotient (total (np_square residuals))
                      (total (np_square (map (fun y => minus y (average ys)) ys))))).
Proof.
  intros Hmodel Hres. unfold rsquared. rewrite Hmodel. cbn [bind].
  rewrite Hres. reflexivity.
Qed.




(** C6, as the code has it: when [n - p - 1 > 0] and [rsquared] is a number,
    [adjusted_rsquared] is a number not above it, and the two are equal
    exactly when [p = 0] or [R^2 = 1] (a perfect fit). *)
Theorem adjusted_le_rsquared
        (pdf : xnum -> xnum -> xnum -> xnum -> xnum) (xs ys params : list xnum) :
  (0 < Py.len xs - Py.len params - 1)%Z ->
  (exists r, rsquared pdf xs ys params = Ok (Fin r)) ->
  exists r a,
    rsquared pdf xs ys params = Ok (Fin r) /\
    adjusted_rsquared pdf xs ys params = Ok (Fin a) /\
    a <= r /\
    (a == r <-> (Py.len params = 0)%Z \/ r == 1).
Proof.
  intros Hd [r Hr].
  assert (Hr1 := rsquared_le_1 _ _ _ _ _ Hr).
  set (d := (Py.len xs - Py.len params - 1)%Z) in *.
  set (p := Py.len params) in *.
  assert (Hp : (0 <= p)%Z) by (unfold p, Py.len; lia).
  assert (Hn : (Py.len xs - 1 = d + p)%Z) by (unfold d, p; lia).
  set (D := inject_Z d). set (P := inject_Z p).
  assert (HD : 0 < D) by (unfold D; change 0 with (inject_Z 0); rewrite <- Zlt_Qlt; lia).
  assert (HP : 0 <= P) by (unfold P; change 0 with (inject_Z 0); rewrite <- Zle_Qle; lia).
  assert (HN : inject_Z (Py.len xs - 1) == D + P)
    by (rewrite Hn, inject_Z_plus; reflexivity).
  exists r, (inject_Z 1 + - ((inject_Z 1 + - r) * inject_Z (Py.len xs - 1) / D)).
  split; [exact Hr|]. split.
  { unfold adjusted_rsquared. exact_arith. rewrite Hr. cbn [bind]. unfold of_int.
    cbn [xsub xadd xopp xmul]. unfold xdiv.
    change (inject_Z (Py.len xs - Py.len params - 1)) with D.
    rewrite (Qeq_bool_pos _ HD). reflexivity. }
  change (inject_Z 1) with 1.
  set (t := (1 + - r) * inject_Z (Py.len xs - 1) / D).
  assert (Ht : t * D == (1 - r) * (D + P)).
  { unfold t. rewrite HN. field. lra. }
  assert (Hgap : (t - (1 - r)) * D == (1 - r) * P) by lra.
  assert (Hprod : 0 <= (1 - r) * P) by (apply Qmult_le_0_compat; lra).
  split.
  - assert (0 <= t - (1 - r)); [|lra].
    destruct (Qlt_le_dec (t - (1 - r)) 0) as [Hneg|Hpos]; [|exact Hpos].
    exfalso. nra.
  - split.
    + intros Heq. assert (Hz : (1 - r) * P == 0).
      { rewrite <- Hgap. setoid_replace (t - (1 - r)) with 0 by lra. ring. }
      destruct (Qeq_dec P 0) as [HP0|HP0].
      * left. unfold P in HP0. unfold Qeq in HP0. simpl in HP0. lia.
      * right. apply Qmult_integral in Hz. destruct Hz; [lra | contradiction].
    + intros [Hp0|Hr0].
      * assert (P == 0) by (unfold P; rewrite Hp0; reflexivity).
        assert (Hz : (t - (1 - r)) * D == 0) by (rewrite Hgap; nra).
        apply Qmult_integral in Hz. destruct Hz; lra.
      * assert (Hz : (t - (1 - r)) * D == 0) by (rewrite Hgap; nra).
        apply Qmult_integral in Hz. destruct Hz; lra.
Qed.

Lemma adjusted_le_rsquared_witness :
  exists r a,
    rsquared unif_pdf (map Fin [0; 1; 2; 3; 4; 5; 6]) (map Fin [1; 0; 1; 0; 1; 0; 0])
             (map Fin [2; 0; 4; 1]) = Ok (Fin r) /\
    adjusted_rsquared unif_pdf (map Fin [0; 1; 2; 3; 4; 5; 6]) (map Fin [1; 0; 1; 0; 1; 0; 0])
                      (map Fin [2; 0; 4; 1]) = Ok (Fin a) /\
    a <= r /\
    (a == r <-> (Py.len (map Fin [2; 0; 4; 1]%Q) = 0)%Z \/ r == 1).
Proof.
  apply (adjusted_le_rsquared
           unif_pdf (map Fin [0; 1; 2; 3; 4; 5; 6]) (map Fin [1; 0; 1; 0; 1; 0; 0])
           (map Fin [2; 0; 4; 1])).
  - reflexivity.
  - eexists. reflexivity.
Defined.

(** C6 as stated fails on both counts, with six samples and four
    parameters ([n - p - 1 = 1]).  On constant samples [R^2] and its
    adjustment are [nan], and [nan <= nan] is false.  On samples the model
    fits exactly both are 1: equal, though [p = 4]. *)
Lemma adjusted_rsquared_nan_and_perfect_fit :
  (rsquared unif_pdf (map Fin [0; 1; 2; 3; 4; 5]) (map Fin [0; 0; 0; 0; 0; 0])
            (map Fin [0; 0; 1; 1]) = Ok NaN /\
   adjusted_rsquared unif_pdf (map Fin [0; 1; 2; 3; 4; 5]) (map Fin [0; 0; 0; 0; 0; 0])
                     (map Fin [0; 0; 1; 1]) = Ok NaN /\
   xle NaN NaN = false) /\
  (exists r a,
      rsquared unif_pdf (map Fin [0; 1; 2; 3; 4; 5])
               (map Fin [1 # 2; 1 # 2; 1 # 2; 0; 0; 0]) (map Fin [1; 0; 2; 1]) = Ok (Fin r) /\
      adjusted_rsquared unif_pdf (map Fin [0; 1; 2; 3; 4; 5])
                        (map Fin [1 # 2; 1 # 2; 1 # 2; 0; 0; 0]) (map Fin [1; 0; 2; 1])
      = Ok (Fin a) /\
      a == r /\ r == 1 /\ (Py.len (map Fin [1; 0; 2; 1]%Q) = 4)%Z).
Proof.
  split.
  - repeat split; reflexivity.
  - eexists. eexists. repeat split; reflexivity.
Qed.


(** * Further properties of the code *)

(** ** The evaluator on every length of the parameter vector *)

Section EvaluatorLengths.

Context {T : Type} `{Scalar T}.

Lemma sum_from_app (g h : list (outcome T)) :
  forall acc, sum_from acc (g ++ h) = (v <- sum_from acc g ;; sum_from v h).
Proof.
  induction g as [|c g IH]; intros acc; simpl; [reflexivity|].
  destruct c as [v| |]; cbn [bind]; [apply IH | reflexivity | reflexivity].
Qed.

(** The indices [range(0, n - 1, 3)] visits on a vector of length [n]. *)
Lemma range_of_length (n : nat) :
  Py.range 0 (Z.of_nat n - 1) 3 = map (fun j => (3 * Z.of_nat j)%Z) (seq 0 ((n + 1) / 3)).
Proof.
  unfold Py.range.
  replace (Z.to_nat ((Z.of_nat n - 1 - 0 + 3 - 1) / 3)) with ((n + 1) / 3)%nat.
  - apply map_ext; intros j; lia.
  - replace (Z.of_nat n - 1 - 0 + 3 - 1)%Z with (Z.of_nat (n + 1)) by lia.
    change 3%Z with (Z.of_nat 3). rewrite <- Nat2Z.inj_div. now rewrite Nat2Z.id.
Qed.

(** A call through a full slice is a component, whatever the length. *)
Lemma star_call_full_slice (kernel : T -> T -> T -> T -> T) (x : T)
      (args : list T) (i : nat) :
  (3 * i + 3 <= length args)%nat ->
  star_call (fun a u sd ts => K <- div ts sd ;; Ok (mul a (kernel x K u sd)))
            args (3 * Z.of_nat i) =
  component_term kernel x args i.
Proof.
  intros Hlen. unfold star_call, component_term.
  rewrite (slice_three args i zero) by lia.
  rewrite (index_last args zero) by (destruct args; simpl in Hlen; [lia | congruence]).
  reflexivity.
Qed.

Lemma sum_full_slices (kernel : T -> T -> T -> T -> T) (x : T)
      (args : list T) (m : nat) :
  (3 * m <= length args)%nat ->
  py_sum (map (star_call (fun a u sd ts => K <- div ts sd ;; Ok (mul a (kernel x K u sd))) args)
              (map (fun j => (3 * Z.of_nat j)%Z) (seq 0 m))) =
  component_sum kernel x args m.
Proof.
  intros Hlen. unfold component_sum. rewrite map_map. f_equal.
  apply map_ext_in. intros i Hi. apply in_seq in Hi.
  apply star_call_full_slice. lia.
Qed.

Lemma sum_short_slice (kernel : T -> T -> T -> T -> T) (x : T) (args : list T) (k : nat) :
  length args = (3 * k + 2)%nat ->
  py_sum (map (star_call (fun a u sd ts => K <- div ts sd ;; Ok (mul a (kernel x K u sd))) args)
              (Py.range 0 (Py.len args - 1) 3)) =
  (_ <- component_sum kernel x args k ;; Raise TypeError).
Proof.
  intros Hlen. unfold Py.len.
  rewrite range_of_length, Hlen.
  replace ((3 * k + 2 + 1) / 3)%nat with (k + 1)%nat
    by (symmetry; replace (3 * k + 2 + 1)%nat with ((k + 1) * 3)%nat by lia;
        apply Nat.div_mul; lia).
  rewrite seq_app, !map_app. unfold py_sum. rewrite sum_from_app.
  fold (py_sum (map (star_call (fun a u sd ts => K <- div ts sd ;; Ok (mul a (kernel x K u sd))) args)
                    (map (fun j => (3 * Z.of_nat j)%Z) (seq 0 k)))).
  rewrite sum_full_slices by lia.
  destruct (component_sum kernel x args k) as [v| |]; cbn [bind]; try reflexivity.
  simpl. unfold star_call.
  rewrite (index_last args zero) by (destruct args; simpl in Hlen; [lia | congruence]).
  cbn [bind].
  assert (Hslice : length (Py.slice args (3 * Z.of_nat (0 + k)) (3 * Z.of_nat (0 + k) + 3)) = 2%nat).
  { unfold Py.slice. rewrite length_firstn, length_skipn. lia. }
  destruct (Py.slice args _ _) as [|a [|u [|sd [|? ?]]]]; simpl in Hslice; try lia.
  reflexivity.
Qed.

Variable pdf : T -> T -> T -> T -> T.
Variable cdf : T -> T -> T -> T -> T.

(** On a vector of length [3k+2] [exgauss] and [integral] never return a
    value: after the [k] full components the slice has two elements left,
    and unpacking it raises [TypeError] (unless a division raised before). *)
Theorem exgauss_short_slice (x : T) (args : list T) (k : nat) :
  length args = (3 * k + 2)%nat ->
  exgauss pdf x args = (_ <- component_sum pdf x args k ;; Raise TypeError) /\
  integral cdf x args = (_ <- component_sum cdf x args k ;; Raise TypeError).
Proof.
  intros Hlen. split.
  - exact (sum_short_slice pdf x args k Hlen).
  - exact (sum_short_slice cdf x args k Hlen).
Qed.


End EvaluatorLengths.

Lemma exgauss_short_slice_witness :
  exgauss unif_pdf (Fin 0) (map Fin [1; 0; 1; 5; 5]) =
  (_ <- component_sum unif_pdf (Fin 0) (map Fin [1; 0; 1; 5; 5]) 1 ;; Raise TypeError) /\
  integral unif_cdf (Fin 0) (map Fin [1; 0; 1; 5; 5]) =
  (_ <- component_sum unif_cdf (Fin 0) (map Fin [1; 0; 1; 5; 5]) 1 ;; Raise TypeError).
Proof.
  apply (exgauss_short_slice unif_pdf unif_cdf (Fin 0) (map Fin [1; 0; 1; 5; 5]) 1).
  reflexivity.
Defined.


(** ** Components one at a time *)

Section ComponentsOneByOne.

Context {T : Type} `{Scalar T}.
Variable pdf : T -> T -> T -> T -> T.

Lemma component_term_app (x : T) (comps tail tail' : list T) (ts : T) (i : nat) :
  (3 * i + 3 <= length comps)%nat ->
  component_term pdf x (comps ++ tail ++ [ts]) i =
  component_term pdf x (comps ++ tail' ++ [ts]) i.
Proof.
  intros Hi. unfold component_term, shared_ts, scale, amplitude, location.
  rewrite !app_assoc, !last_last, <- !app_assoc.
  rewrite !(app_nth1 comps) by lia. reflexivity.
Qed.

(** Appending a component before the shared [ts] adds its term to the sum
    of the components already there (the warm start of a larger model
    starts from the value of the smaller one). *)
Theorem exgauss_append_component (x a u sd ts : T) (comps : list T) (k : nat) :
  length comps = (3 * k)%nat ->
  exgauss pdf x (comps ++ [a; u; sd; ts]) =
  (v <- exgauss pdf x (comps ++ [ts]) ;;
   t <- _exgauss pdf x a u sd ts ;;
   Ok (add v t)).
Proof.
  intros Hlen.
  assert (Hbig : length (comps ++ [a; u; sd; ts]) = (3 * (k + 1) + 1)%nat)
    by (rewrite length_app; simpl; lia).
  assert (Hsmall : length (comps ++ [ts]) = (3 * k + 1)%nat)
    by (rewrite length_app; simpl; lia).
  unfold exgauss at 1 2, _exgauss at 1 2.
  rewrite (sum_by_components pdf x _ (k + 1) Hbig), (sum_by_components pdf x _ k Hsmall).
  unfold component_sum, py_sum.
  rewrite seq_app, map_app, sum_from_app.
  replace (map (component_term pdf x (comps ++ [a; u; sd; ts])) (seq 0 k))
    with (map (component_term pdf x (comps ++ [ts])) (seq 0 k)).
  - destruct (sum_from zero _) as [v| |]; cbn [bind]; try reflexivity.
    simpl. unfold component_term, shared_ts, scale, amplitude, location, _exgauss.
    change (comps ++ [a; u; sd; ts]) with (comps ++ [a; u; sd] ++ [ts]).
    rewrite app_assoc, last_last, <- app_assoc.
    assert (Hn : forall n j, (n = 3 * k + j)%nat ->
                             nth n (comps ++ [a; u; sd] ++ [ts]) zero
                             = nth j ([a; u; sd] ++ [ts]) zero).
    { intros n j ->. rewrite app_nth2 by lia. f_equal. lia. }
    rewrite (Hn (3 * k)%nat 0%nat), (Hn (3 * k + 1)%nat 1%nat), (Hn (3 * k + 2)%nat 2%nat)
      by lia.
    reflexivity.
  - apply map_ext_in. intros i Hi. apply in_seq in Hi.
    apply (component_term_app x comps [] [a; u; sd] ts i). lia.
Qed.

(** The integer 0 that [sum] starts from changes no term. *)
Hypothesis add_zero_l : forall v : T, add zero v = v.

Lemma exgauss_one_component (x a u sd ts : T) :
  exgauss pdf x ([a; u; sd] ++ [ts]) = _exgauss pdf x a u sd ts.
Proof.
  unfold exgauss, py_sum, star_call, _exgauss. simpl.
  destruct (div ts sd) as [K| |]; cbn [bind]; try reflexivity.
  now rewrite add_zero_l.
Qed.

(** [plot_fit._plot]: on a vector of length [3k+1] the dotted curves are the
    [k] components in order, and their sum is the fitted curve drawn in
    black. *)
Theorem component_curves_sum (x : T) (params : list T) (k : nat) :
  length params = (3 * k + 1)%nat ->
  component_curves pdf x params = map (component_term pdf x params) (seq 0 k) /\
  exgauss pdf x params = py_sum (component_curves pdf x params).
Proof.
  intros Hlen.
  assert (Hcurves : component_curves pdf x params
                    = map (component_term pdf x params) (seq 0 k)).
  { unfold component_curves, Py.len. rewrite Hlen, range_by_three, map_map.
    apply map_ext_in. intros i Hi. apply in_seq in Hi.
    unfold component_curve. cbv zeta.
    rewrite (slice_three params i zero) by lia.
    rewrite (index_last params zero) by (destruct params; simpl in Hlen; [lia | congruence]).
    cbn [bind]. rewrite exgauss_one_component. reflexivity. }
  split; [exact Hcurves|].
  rewrite Hcurves. unfold exgauss, _exgauss.
  exact (sum_by_components pdf x params k Hlen).
Qed.

End ComponentsOneByOne.

Lemma exgauss_append_component_witness :
  exgauss unif_pdf (Fin 0) (map Fin [1; 0; 1] ++ [Fin 2; Fin 0; Fin 4; Fin 1]) =
  (v <- exgauss unif_pdf (Fin 0) (map Fin [1; 0; 1] ++ [Fin 1]) ;;
   t <- _exgauss unif_pdf (Fin 0) (Fin 2) (Fin 0) (Fin 4) (Fin 1) ;;
   Ok (add v t)).
Proof.
  apply (exgauss_append_component unif_pdf (Fin 0) (Fin 2) (Fin 0) (Fin 4) (Fin 1)
                                  (map Fin [1; 0; 1]) 1).
  reflexivity.
Defined.

Lemma xadd_zero_l (v : xnum) : xadd (Fin 0) v = v.
Proof.
  destruct v as [[n d]| | |]; try reflexivity.
  unfold xadd, Qplus. simpl. now rewrite Z.mul_1_r.
Qed.

Lemma component_curves_sum_witness :
  component_curves unif_pdf (Fin 1) (map Fin [1; 0; 1; 2; 0; 4; 1]) =
  map (component_term unif_pdf (Fin 1) (map Fin [1; 0; 1; 2; 0; 4; 1])) (seq 0 2) /\
  exgauss unif_pdf (Fin 1) (map Fin [1; 0; 1; 2; 0; 4; 1]) =
  py_sum (component_curves unif_pdf (Fin 1) (map Fin [1; 0; 1; 2; 0; 4; 1])).
Proof.
  apply (@component_curves_sum xnum xnum_scalar unif_pdf xadd_zero_l
                               (Fin 1) (map Fin [1; 0; 1; 2; 0; 4; 1]) 2).
  reflexivity.
Defined.

(** ** File names *)

Lemma rfind_from_absent (c : ascii) (s : str) :
  ~ In c s -> forall i found, rfind_from c s i found = found.
Proof.
  induction s as [|a r IH]; intros Hc i found; simpl; [reflexivity|].
  destruct (Ascii.eqb_spec a c) as [->|Hne]; [exfalso; apply Hc; now left|].
  apply IH. intros Hin. apply Hc. now right.
Qed.

Lemma rfind_from_last (c : ascii) (pre post : str) :
  ~ In c post ->
  forall i found, rfind_from c (pre ++ c :: post) i found = (i + Z.of_nat (length pre))%Z.
Proof.
  intros Hpost. induction pre as [|a pre IH]; intros i found; simpl.
  - rewrite Ascii.eqb_refl, rfind_from_absent by exact Hpost. lia.
  - rewrite IH. lia.
Qed.

(** A character is absent, or has a last occurrence. *)
Lemma last_occurrence (c : ascii) (s : str) :
  ~ In c s \/ exists pre post, s = pre ++ c :: post /\ ~ In c post.
Proof.
  induction s as [|a r IH]; [left; intros []|].
  destruct IH as [Hr|(pre & post & -> & Hpost)].
  - destruct (Ascii.eqb_spec a c) as [->|Hne].
    + right. exists [], r. now split.
    + left. intros [Heq|Hin]; [now apply Hne | now apply Hr].
  - right. exists (a :: pre), post. now split.
Qed.

(** A character that occurs has a first occurrence. *)
Lemma first_occurrence (c : ascii) (s : str) :
  In c s -> exists name rest, s = name ++ c :: rest /\ ~ In c name.
Proof.
  induction s as [|a r IH]; intros Hin; [destruct Hin|].
  destruct (Ascii.eqb_spec a c) as [->|Hne].
  - exists [], r. split; [reflexivity | intros []].
  - destruct Hin as [Heq|Hin]; [now destruct Hne|].
    destruct (IH Hin) as (name & rest & -> & Hname).
    exists (a :: name), rest. split; [reflexivity|].
    intros [Heq|Hin']; [now apply Hne | now apply Hname].
Qed.

Lemma index_from_absent (c : ascii) (s : str) :
  ~ In c s -> forall i, index_from c s i = Raise ValueError.
Proof.
  induction s as [|a r IH]; intros Hc i; simpl; [reflexivity|].
  destruct (Ascii.eqb_spec a c) as [->|Hne]; [exfalso; apply Hc; now left|].
  apply IH. intros Hin. apply Hc. now right.
Qed.

Lemma index_from_first (c : ascii) (name rest : str) :
  ~ In c name ->
  forall i, index_from c (name ++ c :: rest) i = Ok (i + Z.of_nat (length name))%Z.
Proof.
  induction name as [|a name IH]; intros Hname i; simpl.
  - rewrite Ascii.eqb_refl. f_equal. lia.
  - destruct (Ascii.eqb_spec a c) as [->|Hne]; [exfalso; apply Hname; now left|].
    rewrite IH by (intros Hin; apply Hname; now right). f_equal. lia.
Qed.

Lemma basename_no_slash (p : str) : ~ In "/"%char p -> basename p = p.
Proof.
  intros Hp. unfold basename, str_rfind. now rewrite rfind_from_absent.
Qed.

Lemma basename_after_slash (dir file : str) :
  ~ In "/"%char file -> basename (dir ++ "/"%char :: file) = file.
Proof.
  intros Hfile. unfold basename, str_rfind. cbv zeta.
  rewrite rfind_from_last by exact Hfile.
  replace (Z.to_nat (0 + Z.of_nat (length dir) + 1)) with (length (dir ++ ["/"%char]))
    by (rewrite length_app; simpl; lia).
  change (dir ++ "/"%char :: file) with (dir ++ ["/"%char] ++ file).
  rewrite app_assoc, skipn_app, Nat.sub_diag, skipn_all2 by lia.
  reflexivity.
Qed.

(** The base name is what follows the last slash: it holds no slash, and the
    input is a directory part, empty or ending in a slash, followed by it. *)
Lemma basename_spec (p : str) :
  ~ In "/"%char (basename p) /\
  exists dir, p = dir ++ basename p /\ (dir = [] \/ exists d, dir = d ++ ["/"%char]).
Proof.
  destruct (last_occurrence "/"%char p) as [Hp|(pre & post & -> & Hpost)].
  - rewrite basename_no_slash by exact Hp. split; [exact Hp|].
    exists []. split; [reflexivity | now left].
  - rewrite basename_after_slash by exact Hpost. split; [exact Hpost|].
    exists (pre ++ ["/"%char]). split; [now rewrite <- app_assoc | right; now exists pre].
Qed.

Lemma get_frb_of_basename (input name rest : str) :
  basename input = name ++ "."%char :: rest -> ~ In "."%char name ->
  get_frb input = Ok name.
Proof.
  intros Hbase Hname. unfold get_frb, str_index. cbv zeta.
  rewrite Hbase, index_from_first by exact Hname. cbn [bind].
  replace (Z.to_nat (0 + Z.of_nat (length name))) with (length name + 0)%nat by lia.
  now rewrite firstn_app_2, app_nil_r.
Qed.

(** [get_frb] returns the file name up to its first dot, whatever the
    directory before it: dots in the directory part play no role. *)
Theorem get_frb_name (dir name ext : str) :
  ~ In "/"%char name -> ~ In "."%char name -> ~ In "/"%char ext ->
  get_frb (dir ++ "/"%char :: name ++ "."%char :: ext) = Ok name /\
  get_frb (name ++ "."%char :: ext) = Ok name.
Proof.
  intros Hslash Hdot Hext.
  assert (Hfile : ~ In "/"%char (name ++ "."%char :: ext)).
  { intros Hin. apply in_app_or in Hin as [Hin|[Heq|Hin]];
      [now apply Hslash | discriminate | now apply Hext]. }
  split.
  - apply get_frb_of_basename with (rest := ext); [|exact Hdot].
    now apply basename_after_slash.
  - apply get_frb_of_basename with (rest := ext); [|exact Hdot].
    now apply basename_no_slash.
Qed.

Lemma get_frb_name_witness :
  get_frb (list_ascii_of_string "data.v2/run" ++ "/"%char ::
           list_ascii_of_string "FRB190608" ++ "."%char :: list_ascii_of_string "tar.pkl")
  = Ok (list_ascii_of_string "FRB190608") /\
  get_frb (list_ascii_of_string "FRB190608" ++ "."%char :: list_ascii_of_string "tar.pkl")
  = Ok (list_ascii_of_string "FRB190608").
Proof.
  apply (get_frb_name (list_ascii_of_string "data.v2/run")
                      (list_ascii_of_string "FRB190608")
                      (list_ascii_of_string "tar.pkl")).
  - simpl. intros H. repeat (destruct H as [H|H]; [discriminate|]). exact H.
  - simpl. intros H. repeat (destruct H as [H|H]; [discriminate|]). exact H.
  - simpl. intros H. repeat (destruct H as [H|H]; [discriminate|]). exact H.
Defined.

(** [get_frb] raises [ValueError] exactly when the base name of the input
    holds no dot.  A name it returns holds neither a dot nor a slash, and in
    the input it is followed by a dot and preceded by the directory part. *)
Theorem get_frb_outcomes (input : str) :
  (get_frb input = Raise ValueError <-> ~ In "."%char (basename input)) /\
  (forall name, get_frb input = Ok name ->
                ~ In "."%char name /\ ~ In "/"%char name /\
                exists dir rest, input = dir ++ name ++ "."%char :: rest /\
                                 ~ In "/"%char rest).
Proof.
  destruct (basename_spec input) as (Hbase & dir & Hinput & _).
  destruct (in_dec ascii_dec "."%char (basename input)) as [Hin|Hout].
  - destruct (first_occurrence _ _ Hin) as (name & rest & Hsplit & Hname).
    assert (Hget := get_frb_of_basename input name rest Hsplit Hname).
    split.
    + rewrite Hget. split; [discriminate | intros Hno; now destruct Hno].
    + intros name' Hok. rewrite Hget in Hok. injection Hok as <-.
      split; [exact Hname|]. split.
      * intros Hs. apply Hbase. rewrite Hsplit. apply in_or_app. now left.
      * exists dir, rest. split; [now rewrite <- Hsplit|].
        intros Hs. apply Hbase. rewrite Hsplit. apply in_or_app. right. now right.
  - assert (Hget : get_frb input = Raise ValueError).
    { unfold get_frb, str_index. cbv zeta. now rewrite index_from_absent. }
    split.
    + now rewrite Hget.
    + intros name Hok. rewrite Hget in Hok. discriminate.
Qed.

Example get_frb_hidden_file :
  get_frb (list_ascii_of_string "out/.cache") = Ok [] /\
  get_frb (list_ascii_of_string "data.v2/") = Raise ValueError.
Proof. split; reflexivity. Qed.

(** ** The markers of the plot *)

Lemma length_window {A : Type} (xs : list A) (low high : Z) :
  (0 <= low <= high)%Z -> (high <= Py.len xs)%Z ->
  length (Py.slice xs low high) = Z.to_nat (high - low).
Proof.
  intros Hlow Hhigh. unfold Py.slice, Py.len in *.
  rewrite length_firstn, length_skipn. lia.
Qed.

Lemma nth_error_window {A : Type} (xs : list A) (low high : Z) (j : nat) :
  (0 <= low)%Z -> (j < Z.to_nat (high - low))%nat ->
  nth_error (Py.slice xs low high) j = nth_error xs (Z.to_nat low + j).
Proof.
  intros Hlow Hj. unfold Py.slice.
  rewrite nth_error_firstn, nth_error_skipn.
  now replace (j <? Z.to_nat (high - low))%nat with true by (symmetry; apply Nat.ltb_lt; lia).
Qed.

Lemma index_nonneg {A : Type} (l : list A) (i : Z) :
  (0 <= i)%Z ->
  Py.index l i = match nth_error l (Z.to_nat i) with
                 | Some a => Ok a
                 | None => Raise IndexError
                 end.
Proof.
  intros Hi. rewrite <- (Z2Nat.id i) at 1 by exact Hi. apply index_of_nat.
Qed.

(** A bound inside the window is marked at its own coordinate: cutting to
    [xs[low:high]] and indexing by [b - low] reads [xs[b]]. *)
Theorem marker_in_window {A : Type} (xs : list A) (low high b : Z) :
  (0 <= low)%Z -> (low <= b < high)%Z -> (high <= Py.len xs)%Z ->
  marker xs low high b = Py.index xs b /\
  exists x, Py.index xs b = Ok x.
Proof.
  intros Hlow Hb Hhigh. unfold marker. cbv zeta.
  rewrite !index_nonneg, nth_error_window by lia.
  replace (Z.to_nat low + Z.to_nat (b - low))%nat with (Z.to_nat b) by lia.
  split; [reflexivity|].
  destruct (nth_error xs (Z.to_nat b)) as [x|] eqn:E; [now exists x|].
  apply nth_error_None in E. unfold Py.len in Hhigh. lia.
Qed.

Lemma marker_in_window_witness :
  marker [10; 11; 12; 13; 14; 15]%Z 2 5 3 = Py.index [10; 11; 12; 13; 14; 15]%Z 3 /\
  exists x, Py.index [10; 11; 12; 13; 14; 15]%Z 3 = Ok x.
Proof.
  apply (marker_in_window [10; 11; 12; 13; 14; 15]%Z 2 5 3).
  - lia.
  - lia.
  - vm_compute. discriminate.
Defined.

(** A bound at or past the end of the window cannot be marked: the index
    [b - low] is past the cut array and [IndexError] is raised, also for
    [b = high]. *)
Theorem marker_past_window {A : Type} (xs : list A) (low high b : Z) :
  (0 <= low <= high)%Z -> (high <= Py.len xs)%Z -> (high <= b)%Z ->
  marker xs low high b = Raise IndexError.
Proof.
  intros Hlow Hhigh Hb. unfold marker. cbv zeta.
  rewrite index_nonneg by lia.
  replace (nth_error (Py.slice xs low high) (Z.to_nat (b - low))) with (@None A);
    [reflexivity|].
  symmetry. apply nth_error_None. rewrite length_window by lia. lia.
Qed.

Lemma marker_past_window_witness :
  marker [10; 11; 12; 13; 14; 15]%Z 2 5 5 = Raise IndexError.
Proof.
  apply (marker_past_window [10; 11; 12; 13; 14; 15]%Z 2 5 5).
  - lia.
  - vm_compute. discriminate.
  - lia.
Defined.

(** A bound before the window raises nothing while it is within one window
    length of it: the negative index counts from the end of the cut array,
    and the marker is drawn at [xs[high - (low - b)]]. *)
Theorem marker_before_window {A : Type} (xs : list A) (low high b : Z) :
  (0 <= low)%Z -> (high <= Py.len xs)%Z -> (b < low)%Z -> (low - b <= high - low)%Z ->
  marker xs low high b = Py.index xs (high - (low - b)) /\
  exists x, Py.index xs (high - (low - b)) = Ok x.
Proof.
  intros Hlow Hhigh Hb Hwrap. unfold marker. cbv zeta.
  assert (Hlen := length_window xs low high ltac:(lia) Hhigh).
  set (j := (high - low + (b - low))%Z).
  assert (Hleft : Py.index (Py.slice xs low high) (b - low)
                  = Py.index (Py.slice xs low high) j).
  { rewrite (index_nonneg _ j) by (unfold j; lia). unfold Py.index. cbv zeta.
    replace (b - low <? 0)%Z with true by (symmetry; apply Z.ltb_lt; lia).
    rewrite Hlen.
    replace (Z.of_nat (Z.to_nat (high - low)) + (b - low))%Z with j by (unfold j; lia).
    replace ((0 <=? j) && (j <? Z.of_nat (Z.to_nat (high - low))))%Z%bool with true.
    - destruct (nth_error _ (Z.to_nat j)); reflexivity.
    - symmetry. apply andb_true_iff. split; [apply Z.leb_le | apply Z.ltb_lt]; unfold j; lia. }
  rewrite Hleft.
  rewrite !index_nonneg, nth_error_window by (unfold j; lia).
  replace (Z.to_nat low + Z.to_nat j)%nat with (Z.to_nat (high - (low - b)))
    by (unfold j; lia).
  split; [reflexivity|].
  destruct (nth_error xs (Z.to_nat (high - (low - b)))) as [x|] eqn:E; [now exists x|].
  apply nth_error_None in E. unfold Py.len in Hhigh. lia.
Qed.

Lemma marker_before_window_witness :
  marker [10; 11; 12; 13; 14; 15]%Z 2 5 1 = Py.index [10; 11; 12; 13; 14; 15]%Z (5 - (2 - 1)) /\
  exists x, Py.index [10; 11; 12; 13; 14; 15]%Z (5 - (2 - 1)) = Ok x.
Proof.
  apply (marker_before_window [10; 11; 12; 13; 14; 15]%Z 2 5 1).
  - lia.
  - vm_compute. discriminate.
  - lia.
  - lia.
Defined.

(** ** A central area above 1 *)

Lemma trapz_nonneg (ys : list Q) : Forall (fun y => 0 <= y) ys -> 0 <= trapz ys.
Proof.
  induction 1 as [|a ys Ha Hys IH]; [simpl; lra|].
  destruct Hys as [|b r Hb Hr]; [simpl; lra|].
  rewrite trapz_cons2. lra.
Qed.

(** On non-negative samples the area accumulates: no part exceeds the
    whole. *)
Lemma cumulative_le_total (ys : list Q) :
  Forall (fun y => 0 <= y) ys -> forall i, cumulative ys i <= trapz ys.
Proof.
  unfold cumulative.
  induction 1 as [|a ys Ha Hys IH]; intros i.
  - destruct i; simpl; lra.
  - assert (Htot := trapz_nonneg (a :: ys) (Forall_cons a Ha Hys)).
    destruct i as [|i]; [exact Htot|].
    destruct ys as [|b r]; [destruct i; simpl; lra|].
    destruct i as [|i]; [exact Htot|].
    specialize (IH (S i)).
    change (firstn (S (S i)) (a :: b :: r)) with (a :: b :: firstn i r).
    change (firstn (S i) (b :: r)) with (b :: firstn i r) in IH.
    rewrite !trapz_cons2. lra.
Qed.

(** With a central area above 1, on non-negative samples of positive total
    area, [raw_burst_range] never returns: the upper threshold lies above
    the total area, and the second loop runs on past the end of the array,
    where the slice no longer grows. *)
Theorem raw_burst_range_area_above_one (ys : list Q) (area extra_width : Q) (fuel : nat) :
  Forall (fun y => 0 <= y) ys -> 0 < trapz ys -> 1 < area ->
  raw_burst_range fuel ys area extra_width = OutOfFuel.
Proof.
  intros Hys Htot Harea. unfold raw_burst_range. exact_arith. cbv zeta.
  assert (Hl : (1 - area) / 2 * trapz ys == (1 - area) * (1 # 2) * trapz ys) by field.
  assert (Hh : (1 + area) / 2 * trapz ys == (1 + area) * (1 # 2) * trapz ys) by field.
  destruct fuel as [|fuel]; [reflexivity|].
  replace (raw_scan (S fuel) ys ((1 - area) / 2 * trapz ys) 0) with (@Ok nat 0%nat).
  - cbn [bind]. rewrite raw_scan_unreachable; [reflexivity|].
    intros i. assert (Hi := cumulative_le_total ys Hys i). nra.
  - simpl. replace (Qltb 0 ((1 - area) / 2 * trapz ys)) with false; [reflexivity|].
    symmetry. apply Qltb_ge. nra.
Qed.

Lemma raw_burst_range_area_above_one_witness :
  raw_burst_range 1000 [0; 1; 3; 4; 3; 1; 0] (11 # 10) (1 # 4) = OutOfFuel.
Proof.
  apply (raw_burst_range_area_above_one [0; 1; 3; 4; 3; 1; 0] (11 # 10) (1 # 4) 1000).
  - repeat constructor; vm_compute; discriminate.
  - reflexivity.
  - reflexivity.
Defined.


(** ** The model scan on a finite model *)

Section FiniteModelScan.

Variable cdf : xnum -> xnum -> xnum -> xnum -> xnum.
Variables (xs params : list xnum) (I : nat -> Q).

(** The integral of the model is the number [I i] at sample [i]. *)
Hypothesis integral_finite :
  forall i x, nth_error xs i = Some x -> integral cdf x params = Ok (Fin (I i)).

Lemma model_scan_finite (threshold : Q) (j : nat) :
  (j < length xs)%nat -> threshold <= I j ->
  forall fuel i, (i <= j)%nat -> (j - i < fuel)%nat ->
  exists j', model_scan cdf fuel xs params (Fin threshold) i = Ok j' /\
             (i <= j' <= j)%nat /\ threshold <= I j' /\
             forall m, (i <= m < j')%nat -> I m < threshold.
Proof.
  intros Hj Hreach. induction fuel as [|fuel IH]; intros i Hij Hfuel; [lia|].
  simpl. rewrite index_of_nat.
  destruct (nth_error xs i) as [x|] eqn:Ex;
    [|apply nth_error_None in Ex; lia].
  cbn [bind]. rewrite (integral_finite i x Ex). cbn [bind xlt].
  destruct (Qltb (I i) threshold) eqn:E.
  - apply Qltb_lt in E.
    assert (i <> j) by (intros ->; lra).
    destruct (IH (S i) ltac:(lia) ltac:(lia)) as (j' & Hscan & Hord & Hat & Hbelow).
    exists j'. split; [exact Hscan|]. split; [lia|]. split; [exact Hat|].
    intros m Hm. destruct (Nat.eq_dec m i) as [->|Hne]; [exact E | apply Hbelow; lia].
  - apply Qltb_ge in E. exists i. split; [reflexivity|]. split; [lia|].
    split; [exact E|]. intros m Hm. lia.
Qed.

(** Model mode on a finite model of non-negative total, for a central
    fraction: [model_burst_range] returns two sample indices [low <= high];
    [low] is the first sample at which the integral is at least
    [(1 - area) / 2 * total] and [high] the first at which it is at least
    [(1 + area) / 2 * total], [total] being the integral at the last sample.
    It does not run off the array. *)
Theorem model_burst_range_first_samples (area : Q) (fuel : nat) :
  xs <> [] -> 0 <= I (length xs - 1) -> 0 <= area -> area <= 1 ->
  (length xs < fuel)%nat ->
  let total := I (length xs - 1) in
  exists low high : nat,
    model_burst_range cdf fuel xs params (Fin area) = Ok (low, high) /\
    (low <= high < length xs)%nat /\
    first_sample_reaching I ((1 - area) / 2 * total) low /\
    first_sample_reaching I ((1 + area) / 2 * total) high.
Proof.
  intros Hne Htot H0 H1 Hfuel total.
  assert (Hlen : (0 < length xs)%nat) by (destruct xs; simpl; [congruence | lia]).
  destruct (thresholds_of_fraction area total H0 H1) as [Hpos _].
  cbv zeta in Hpos. destruct (Hpos Htot) as [Hlh Hht].
  unfold model_burst_range. exact_arith.
  rewrite (index_last xs (Fin 0)) by exact Hne. cbn [bind].
  assert (Hlast : nth_error xs (length xs - 1) = Some (last xs (Fin 0))).
  { rewrite nth_error_nth' with (d := Fin 0) by lia. f_equal.
    destruct xs as [|a r] using rev_ind; [congruence|].
    rewrite last_last, length_app. simpl.
    replace (length r + 1 - 1)%nat with (length r) by lia. now rewrite nth_middle. }
  rewrite (integral_finite _ _ Hlast). cbn [bind]. fold total.
  change (xmul (xdiv (xsub (of_int 1) (Fin area)) (of_int 2)) (Fin total))
    with (Fin ((1 - area) / 2 * total)).
  change (xmul (xdiv (xadd (of_int 1) (Fin area)) (of_int 2)) (Fin total))
    with (Fin ((1 + area) / 2 * total)).
  destruct (model_scan_finite ((1 - area) / 2 * total) (length xs - 1) ltac:(lia)
                              ltac:(fold total; lra) fuel 0 ltac:(lia) ltac:(lia))
    as (low & Hlow & Hlo & Hlat & Hlbelow).
  rewrite Hlow. cbn [bind].
  destruct (model_scan_finite ((1 + area) / 2 * total) (length xs - 1) ltac:(lia)
                              ltac:(fold total; lra) fuel low ltac:(lia) ltac:(lia))
    as (high & Hhigh & Hho & Hhat & Hhbelow).
  rewrite Hhigh. cbn [bind].
  exists low, high. split; [reflexivity|]. split; [lia|]. split.
  - split; [exact Hlat|]. intros m Hm. apply Hlbelow. lia.
  - split; [exact Hhat|]. intros m Hm.
    destruct (le_lt_dec low m) as [Hge|Hlt]; [apply Hhbelow; lia|].
    specialize (Hlbelow m ltac:(lia)). lra.
Qed.

End FiniteModelScan.

Lemma ramp_integrals_computed (i : nat) (x : xnum) :
  nth_error (map Fin [0; 1; 2; 3; 4; 5]) i = Some x ->
  integral unif_cdf x (map Fin [2; 0; 4; 1]) = Ok (Fin (ramp_integrals i)).
Proof.
  intros Hi.
  do 6 (destruct i as [|i]; [injection Hi as <-; reflexivity|]).
  destruct i; discriminate.
Qed.

Lemma model_burst_range_first_samples_witness :
  exists low high : nat,
    model_burst_range unif_cdf 7 (map Fin [0; 1; 2; 3; 4; 5]) (map Fin [2; 0; 4; 1])
                      (Fin (9 # 10))
    = Ok (low, high) /\
    (low <= high < length (map Fin [0; 1; 2; 3; 4; 5]%Q))%nat /\
    first_sample_reaching
      ramp_integrals
      ((1 - (9 # 10)) / 2 * ramp_integrals (length (map Fin [0; 1; 2; 3; 4; 5]) - 1)) low /\
    first_sample_reaching
      ramp_integrals
      ((1 + (9 # 10)) / 2 * ramp_integrals (length (map Fin [0; 1; 2; 3; 4; 5]) - 1)) high.
Proof.
  apply (model_burst_range_first_samples
           unif_cdf (map Fin [0; 1; 2; 3; 4; 5]) (map Fin [2; 0; 4; 1])
           ramp_integrals ramp_integrals_computed (9 # 10) 7).
  - discriminate.
  - vm_compute. discriminate.
  - vm_compute. discriminate.
  - vm_compute. discriminate.
  - simpl. lia.
Defined.

(** ** A total area that is not a number *)

(** When the integral at the last sample is [nan] (a scale that is not
    positive, say), both thresholds are [nan], no comparison with them
    holds, and [model_burst_range] returns [(0, 0)] at once: the failure of
    the model is not reported. *)
Theorem model_burst_range_nan_total
        (cdf : xnum -> xnum -> xnum -> xnum -> xnum)
        (x0 : xnum) (rest params : list xnum) (v : xnum) (area : xnum) (fuel : nat) :
  (0 < fuel)%nat ->
  integral cdf (last (x0 :: rest) x0) params = Ok NaN ->
  integral cdf x0 params = Ok v ->
  model_burst_range cdf fuel (x0 :: rest) params area = Ok (0%nat, 0%nat).
Proof.
  intros Hfuel Hlast Hfirst. unfold model_burst_range. exact_arith.
  rewrite (index_last (x0 :: rest) x0) by discriminate. cbn [bind].
  rewrite Hlast. cbn [bind].
  assert (Hnan : forall c, xmul c NaN = NaN) by (intros c; now destruct c).
  rewrite !Hnan.
  destruct fuel as [|fuel]; [lia|].
  assert (Hscan : model_scan cdf (S fuel) (x0 :: rest) params NaN 0 = Ok 0%nat).
  { simpl. change (Py.index (x0 :: rest) 0) with (@Ok xnum x0). cbn [bind].
    rewrite Hfirst. cbn [bind]. now destruct v. }
  rewrite Hscan. cbn [bind]. rewrite Hscan. reflexivity.
Qed.

Lemma model_burst_range_nan_total_witness :
  model_burst_range unif_cdf 1 (Fin 0 :: map Fin [1; 2; 3]) (map Fin [2; 0; -4; 1])
                    (Fin (9 # 10))
  = Ok (0%nat, 0%nat).
Proof.
  apply (model_burst_range_nan_total unif_cdf (Fin 0) (map Fin [1; 2; 3])
                                     (map Fin [2; 0; -4; 1]) NaN (Fin (9 # 10)) 1).
  - lia.
  - reflexivity.
  - reflexivity.
Defined.

Example model_burst_range_empty (cdf : xnum -> xnum -> xnum -> xnum -> xnum)
        (params : list xnum) (area : xnum) (fuel : nat) :
  model_burst_range cdf fuel [] params area = Raise IndexError.
Proof. reflexivity. Qed.

(** ** A malformed parameter vector *)

Section MalformedVector.

Context {T : Type} `{Floating T}.
Variables pdf cdf : T -> T -> T -> T -> T.

(** A parameter vector of length [3k+2] is reported by the callers of the
    model only if there is a sample to evaluate it at.  On a non-empty [xs],
    [rsquared] and [adjusted_rsquared] fail at the first sample and
    [model_burst_range] at the last one, as [exgauss] and [integral] do
    there: the [k] full components are summed, which raises if a division
    does, and then the short slice raises [TypeError].  On no samples at all
    [rsquared] evaluates nothing of the model and returns
    [1 - sum([]) / sum([])].  It holds in every arithmetic. *)
Theorem short_vector_reported_on_samples
        (x0 : T) (rest ys params : list T) (k : nat) (area : T) (fuel : nat) :
  length params = (3 * k + 2)%nat ->
  rsquared pdf (x0 :: rest) ys params =
  (_ <- component_sum pdf x0 params k ;; Raise TypeError) /\
  adjusted_rsquared pdf (x0 :: rest) ys params =
  (_ <- component_sum pdf x0 params k ;; Raise TypeError) /\
  model_burst_range cdf fuel (x0 :: rest) params area =
  (_ <- component_sum cdf (last (x0 :: rest) x0) params k ;; Raise TypeError) /\
  rsquared pdf [] [] params = Ok (minus (from_int 1) (quotient (total []) (total []))).
Proof.
  intros Hlen.
  assert (Hpdf : forall x, exgauss pdf x params =
                           (_ <- component_sum pdf x params k ;; Raise TypeError))
    by (intros x; exact (sum_short_slice pdf x params k Hlen)).
  assert (Hcdf : forall x, integral cdf x params =
                           (_ <- component_sum cdf x params k ;; Raise TypeError))
    by (intros x; exact (sum_short_slice cdf x params k Hlen)).
  assert (Hrs : rsquared pdf (x0 :: rest) ys params =
                (_ <- component_sum pdf x0 params k ;; Raise TypeError)).
  { unfold rsquared. cbn [list_comp]. rewrite Hpdf.
    now destruct (component_sum pdf x0 params k). }
  split; [exact Hrs|]. split; [|split].
  - unfold adjusted_rsquared. rewrite Hrs.
    now destruct (component_sum pdf x0 params k).
  - unfold model_burst_range.
    rewrite (index_last (x0 :: rest) x0) by discriminate. cbn [bind].
    rewrite Hcdf. now destruct (component_sum cdf _ params k).
  - reflexivity.
Qed.

End MalformedVector.

Lemma short_vector_reported_on_samples_witness :
  rsquared unif_pdf (Fin 0 :: map Fin [1; 2]) (map Fin [0; 1; 0]) (map Fin [1; 0; 1; 5; 5]) =
  (_ <- component_sum unif_pdf (Fin 0) (map Fin [1; 0; 1; 5; 5]) 1 ;; Raise TypeError) /\
  adjusted_rsquared unif_pdf (Fin 0 :: map Fin [1; 2]) (map Fin [0; 1; 0])
                    (map Fin [1; 0; 1; 5; 5]) =
  (_ <- component_sum unif_pdf (Fin 0) (map Fin [1; 0; 1; 5; 5]) 1 ;; Raise TypeError) /\
  model_burst_range unif_cdf 4 (Fin 0 :: map Fin [1; 2]) (map Fin [1; 0; 1; 5; 5])
                    (Fin (9 # 10)) =
  (_ <- component_sum unif_cdf (last (Fin 0 :: map Fin [1; 2]) (Fin 0))
                      (map Fin [1; 0; 1; 5; 5]) 1 ;; Raise TypeError) /\
  rsquared unif_pdf [] [] (map Fin [1; 0; 1; 5; 5]) =
  Ok (minus (from_int 1) (quotient (total []) (total []))).
Proof.
  apply (short_vector_reported_on_samples
           unif_pdf unif_cdf (Fin 0) (map Fin [1; 2]) (map Fin [0; 1; 0])
           (map Fin [1; 0; 1; 5; 5]) 1 (Fin (9 # 10)) 4).
  reflexivity.
Defined.

(** In that run no division raises (the parameters are NumPy scalars), so
    the error is the [TypeError], and [rsquared] on no samples is [nan]. *)
Example short_vector_numpy :
  rsquared unif_pdf (Fin 0 :: map Fin [1; 2]) (map Fin [0; 1; 0]) (map Fin [1; 0; 1; 5; 5])
  = Raise TypeError /\
  model_burst_range unif_cdf 4 (Fin 0 :: map Fin [1; 2]) (map Fin [1; 0; 1; 5; 5])
                    (Fin (9 # 10))
  = Raise TypeError /\
  rsquared unif_pdf [] [] (map Fin [1; 0; 1; 5; 5]) = Ok NaN.
Proof. repeat split; reflexivity. Qed.

(** With Python-float parameters a zero scale in a full component raises
    first: the error is then [ZeroDivisionError]. *)
Example short_vector_zero_scale :
  @rsquared xnum pyfloat_params pyfloat_numpy unif_pdf
            (Fin 0 :: map Fin [1; 2]) (map Fin [0; 1; 0]) (map Fin [1; 0; 0; 5; 5])
  = Raise ZeroDivisionError /\
  @model_burst_range xnum pyfloat_params pyfloat_numpy unif_cdf 4
                     (Fin 0 :: map Fin [1; 2]) (map Fin [1; 0; 0; 5; 5]) (Fin (9 # 10))
  = Raise ZeroDivisionError.
Proof. split; reflexivity. Qed.

(** ** Samples and model values of different lengths *)

Lemma list_comp_length {A B : Type} (f : A -> outcome B) (xs : list A) :
  Forall (fun x => exists v, f x = Ok v) xs ->
  exists vs, list_comp f xs = Ok vs /\ length vs = length xs.
Proof.
  induction 1 as [|x xs [v Hv] Hxs (vs & Hvs & Hlen)]; simpl.
  - now exists [].
  - rewrite Hv, Hvs. cbn [bind]. exists (v :: vs). split; [reflexivity | simpl; now rewrite Hlen].
Qed.

(** [xs] and [ys] of different lengths, neither of length one, cannot be
    subtracted: where the model evaluates at every sample, [rsquared] and
    [adjusted_rsquared] raise NumPy's [ValueError]. *)
Theorem rsquared_length_mismatch
        (pdf : xnum -> xnum -> xnum -> xnum -> xnum) (xs ys params : list xnum) :
  Forall (fun x => exists v, exgauss pdf x params = Ok v) xs ->
  length ys <> length xs -> length ys <> 1%nat -> length xs <> 1%nat ->
  rsquared pdf xs ys params = Raise ValueError /\
  adjusted_rsquared pdf xs ys params = Raise ValueError.
Proof.
  intros Hmodel Hne Hys Hxs.
  destruct (list_comp_length _ _ Hmodel) as (model & Hcomp & Hlen).
  assert (Hrs : rsquared pdf xs ys params = Raise ValueError).
  { unfold rsquared. exact_arith. rewrite Hcomp. cbn [bind]. unfold np_sub. exact_arith.
    replace (Nat.eqb (length ys) (length model)) with false
      by (symmetry; apply Nat.eqb_neq; lia).
    destruct ys as [|y [|y' ys']]; [| simpl in Hys; lia |];
      (destruct model as [|m [|m' model']]; [| simpl in Hlen; lia |]; reflexivity). }
  split; [exact Hrs|]. unfold adjusted_rsquared. exact_arith. now rewrite Hrs.
Qed.

Lemma rsquared_length_mismatch_witness :
  rsquared unif_pdf (map Fin [0; 1; 2]) (map Fin [0; 1]) (map Fin [2; 0; 4; 1])
  = Raise ValueError /\
  adjusted_rsquared unif_pdf (map Fin [0; 1; 2]) (map Fin [0; 1]) (map Fin [2; 0; 4; 1])
  = Raise ValueError.
Proof.
  apply (rsquared_length_mismatch unif_pdf (map Fin [0; 1; 2]) (map Fin [0; 1])
                                  (map Fin [2; 0; 4; 1])).
  - repeat constructor; eexists; reflexivity.
  - simpl; lia.
  - simpl; lia.
  - simpl; lia.
Defined.

(** ** The range of [R^2] *)

Lemma xdiv_keeps_nonneg (a b : xnum) : xnonneg a -> xnonneg b -> xnonneg (xdiv a b).
Proof.
  destruct a as [p| | |], b as [q| | |]; simpl; try tauto; intros Ha Hb.
  - destruct (Qeq_bool q 0) eqn:E.
    + destruct (p ?= 0) eqn:C; simpl; try exact I.
      apply Qlt_alt in C. lra.
    + assert (~ q == 0) by (intros Hq; apply Qeq_bool_iff in Hq; congruence).
      simpl. apply Qle_shift_div_l; lra.
  - lra.
  - destruct (Qltb q 0) eqn:E; [|exact I].
    apply Qltb_lt in E. lra.
Qed.

(** [R^2] is never above 1: whatever [rsquared] returns is a number at most
    1, [-inf] (a constant [ys] that the model misses) or [nan]. *)
Theorem rsquared_never_above_one
        (pdf : xnum -> xnum -> xnum -> xnum -> xnum) (xs ys params : list xnum) :
  match rsquared pdf xs ys params with
  | Ok rs => xlt (of_int 1) rs = false
  | _ => True
  end.
Proof.
  unfold rsquared. exact_arith.
  destruct (list_comp _ xs) as [model| |]; cbn [bind]; try exact I.
  destruct (np_sub ys model) as [residuals| |]; cbn [bind]; try exact I.
  assert (Hd := xdiv_keeps_nonneg _ _ (xnonneg_sum_squares residuals)
                  (xnonneg_sum_squares (map (fun y => xsub y (np_mean ys)) ys))).
  destruct (xdiv _ _) as [d| | |]; simpl in *; try reflexivity.
  - apply Qltb_ge. lra.
  - contradiction.
Qed.
